(** * kt: partition hasher and topic metadata pipeline

    A shallow embedding of [common.go] (hashCode, kafkaAbs,
    hashCodePartition) and [topic.go] (readTopic, the worker [print]
    method and the orchestration in [run]) together with the properties
    established about them. *)

From Stdlib Require Import ZArith Lia Ascii String List Bool Permutation.
From stdpp Require Import base tactics option list numbers strings.

(** ** Part I.  The partition hasher ([common.go]) *)

Module Hasher.
Local Open Scope Z_scope.

(** *** 32-bit signed integers

    Go's [int32] arithmetic wraps around silently.  Values are integers in
    [[-2^31, 2^31)]; every arithmetic result is brought back into that
    interval. *)

Definition int32_min : Z := -2147483648.
Definition int32_max : Z := 2147483647.

Definition is_int32 (z : Z) : Prop := int32_min <= z <= int32_max.

Definition wrap32 (z : Z) : Z := (z + 2^31) mod 2^32 - 2^31.

Definition add32 (a b : Z) : Z := wrap32 (a + b).
Definition mul32 (a b : Z) : Z := wrap32 (a * b).

(** Go's [%] on integers truncates toward zero; a zero divisor is a
    run-time panic, rendered here as [None]. *)
Definition rem32 (a b : Z) : option Z :=
  if b =? 0 then None else Some (Z.rem a b).

(** *** Strings

    A Go string is a sequence of bytes.  [bytes] gives their numeric
    values. *)

Definition bytes (s : string) : list Z :=
  map (fun a => Z.of_N (N_of_ascii a)) (list_ascii_of_string s).

Definition is_byte (b : Z) : Prop := 0 <= b < 256.

(** Unicode code points. *)
Definition is_code_point (r : Z) : Prop := 0 <= r <= 0x10FFFF.

(** *** [for _, r := range s]

    Ranging over a string decodes UTF-8: each iteration yields one code
    point; an invalid sequence yields U+FFFD and advances one byte. *)

Definition RuneError : Z := 0xFFFD.

Definition locb : Z := 0x80.
Definition hicb : Z := 0xBF.
Definition maskx : Z := 0x3F.
Definition mask2 : Z := 0x1F.
Definition mask3 : Z := 0x0F.
Definition mask4 : Z := 0x07.

(** What the first byte of a sequence announces: an ASCII byte, an
    invalid lead byte, or a lead byte of a [size]-byte sequence whose
    second byte must lie in [[lo, hi]]. *)
Inductive first_info : Type :=
  | AS
  | XX
  | Lead (size : nat) (lo hi : Z).

Definition first (b : Z) : first_info :=
  if b <? 0x80 then AS
  else if b <? 0xC2 then XX
  else if b <? 0xE0 then Lead 2 locb hicb
  else if b =? 0xE0 then Lead 3 0xA0 hicb
  else if b <? 0xED then Lead 3 locb hicb
  else if b =? 0xED then Lead 3 locb 0x9F
  else if b <? 0xF0 then Lead 3 locb hicb
  else if b =? 0xF0 then Lead 4 0x90 hicb
  else if b <? 0xF4 then Lead 4 locb hicb
  else if b =? 0xF4 then Lead 4 locb 0x8F
  else XX.

Definition out_of (lo hi b : Z) : bool := (b <? lo) || (hi <? b).

Definition rune2 (s0 s1 : Z) : Z :=
  Z.lor (Z.shiftl (Z.land s0 mask2) 6) (Z.land s1 maskx).

Definition rune3 (s0 s1 s2 : Z) : Z :=
  Z.lor (Z.lor (Z.shiftl (Z.land s0 mask3) 12)
               (Z.shiftl (Z.land s1 maskx) 6))
        (Z.land s2 maskx).

Definition rune4 (s0 s1 s2 s3 : Z) : Z :=
  Z.lor (Z.lor (Z.lor (Z.shiftl (Z.land s0 mask4) 18)
                      (Z.shiftl (Z.land s1 maskx) 12))
               (Z.shiftl (Z.land s2 maskx) 6))
        (Z.land s3 maskx).

(** The sequence of runes a [range] loop over the bytes [s] visits. *)
Fixpoint runes (s : list Z) : list Z :=
  match s with
  | [] => []
  | s0 :: t0 =>
    match first s0 with
    | AS => s0 :: runes t0
    | XX => RuneError :: runes t0
    | Lead sz lo hi =>
      match t0 with
      | [] => RuneError :: runes t0
      | s1 :: t1 =>
        if out_of lo hi s1 then RuneError :: runes t0
        else if (sz <=? 2)%nat then rune2 s0 s1 :: runes t1
        else
          match t1 with
          | [] => RuneError :: runes t0
          | s2 :: t2 =>
            if out_of locb hicb s2 then RuneError :: runes t0
            else if (sz <=? 3)%nat then rune3 s0 s1 s2 :: runes t2
            else
              match t2 with
              | [] => RuneError :: runes t0
              | s3 :: t3 =>
                if out_of locb hicb s3 then RuneError :: runes t0
                else rune4 s0 s1 s2 s3 :: runes t3
              end
          end
      end
    end
  end.

(** *** [utf16.EncodeRune] *)

Definition replacementChar : Z := 0xFFFD.
Definition maxRune : Z := 0x10FFFF.
Definition surr1 : Z := 0xd800.
Definition surr2 : Z := 0xdc00.
Definition surrSelf : Z := 0x10000.

Definition EncodeRune (r : Z) : Z * Z :=
  if (r <? surrSelf) || (maxRune <? r) then (replacementChar, replacementChar)
  else
    let r' := r - surrSelf in
    (surr1 + Z.land (Z.shiftr r' 10) 0x3ff, surr2 + Z.land r' 0x3ff).

(** *** [hashCode] *)

(** One iteration of the loop body. *)
Definition hashStep (hc r : Z) : Z :=
  let '(r1, r2) := EncodeRune r in
  if (r1 =? 0xfffd) && (r1 =? r2)
  then add32 (mul32 hc 31) r
  else add32 (mul32 (add32 (mul32 hc 31) r1) 31) r2.

Definition hashCode (s : string) : Z :=
  fold_left hashStep (runes (bytes s)) 0.

(** *** [kafkaAbs] and [hashCodePartition] *)

Definition kafkaAbs (i : Z) : Z :=
  if i =? -2147483648 then 0
  else if i <? 0 then mul32 i (-1)
  else i.

Definition hashCodePartition (key : string) (partitions : Z) : option Z :=
  if partitions <=? 0 then Some (-1)
  else rem32 (kafkaAbs (hashCode key)) partitions.

(** *** The reference algorithm, as the specification words it

    The string's UTF-16 code unit sequence: a code point of the Basic
    Multilingual Plane is one unit, any other is a high surrogate followed
    by a low surrogate.  The reference hash folds [h = 31*h + unit] in
    32-bit signed arithmetic. *)

Definition is_bmp (r : Z) : bool := r <? 0x10000.

Definition utf16_of_rune (r : Z) : list Z :=
  if is_bmp r then [r]
  else [0xD800 + (r - 0x10000) / 0x400; 0xDC00 + (r - 0x10000) mod 0x400].

Definition utf16_units (s : string) : list Z :=
  flat_map utf16_of_rune (runes (bytes s)).

Definition ref_step (h u : Z) : Z := wrap32 (31 * h + u).

Definition ref_hash (units : list Z) : Z := fold_left ref_step units 0.

End Hasher.

(** ** Part II.  Topic records and their retrieval ([topic.go]) *)

Module Topic.

(** *** Go values used by [topic.go] *)

(** An [error] is represented by the text its [Error()] method gives. *)
Definition error : Type := string.

Inductive result (A : Type) : Type :=
  | Ok (a : A)
  | Err (e : error).
Arguments Ok {A} a.
Arguments Err {A} e.

Definition bind {A B : Type} (r : result A) (k : A -> result B) : result B :=
  match r with
  | Ok a => k a
  | Err e => Err e
  end.

Notation "'let!' x ':=' r 'in' k" := (bind r (fun x => k))
  (at level 10, x name, r at level 100, k at level 200).

(** A slice is either [nil] or backed by an array. *)
Definition slice (A : Type) : Type := option (list A).

Definition elems {A : Type} (s : slice A) : list A :=
  match s with
  | None => []
  | Some l => l
  end.

Definition len {A : Type} (s : slice A) : nat := length (elems s).

Definition append {A : Type} (s : slice A) (x : A) : slice A :=
  Some (elems s ++ [x]).

(** *** When a retrieval fails *)

Definition call_fails {A : Type} (r : result A) : Prop := exists e, r = Err e.

(** *** The regular-expression engine

    [regexp] is an external package.  An engine supplies the compiled
    form and the judgement that an expression matches the span [[i, j)]
    of a subject string (so that anchors can look at the context).
    [MatchString] reports whether the subject contains any match. *)

Class RegexpEngine : Type := {
  Regexp : Type;
  Compile : string -> result Regexp;
  matches_at : Regexp -> string -> nat -> nat -> bool
}.

Definition MatchString `{RegexpEngine} (re : Regexp) (s : string) : bool :=
  existsb (fun i => existsb (fun j => matches_at re s i j)
                            (seq i (S (String.length s) - i)))
          (seq 0 (S (String.length s))).

(** An engine in which every pattern character stands for itself. *)
#[local] Instance literal_engine : RegexpEngine := {|
  Regexp := string;
  Compile := fun p => Ok p;
  matches_at := fun re s i j =>
    (i <=? j)%nat && (j <=? String.length s)%nat
    && String.eqb (String.substring i (j - i) s) re
|}.

(** *** The cluster client

    The client is an external collaborator; each call either yields a
    value or fails. *)

Inductive OffsetKind : Type := OffsetNewest | OffsetOldest.

Record Broker : Type := { Addr : string }.

Record Client : Type := {
  Topics : result (list string);
  Partitions : string -> result (slice Z);
  GetOffset : string -> Z -> OffsetKind -> result Z;
  Leader : string -> Z -> result Broker;
  Replicas : string -> Z -> result (slice Z);
  InSyncReplicas : string -> Z -> result (slice Z)
}.

(** *** Records *)

Record partition : Type := {
  Id : Z;
  OldestOffset : Z;
  NewestOffset : Z;
  PLeader : string;
  PReplicas : slice Z;
  ISRs : slice Z
}.

Record topic : Type := {
  Name : string;
  TPartitions : slice partition
}.

Record topicCmd `{RegexpEngine} : Type := {
  filter : Regexp;
  partitions : bool;
  leaders : bool;
  replicas : bool;
  pretty : bool;
  client : Client
}.

(** The keys [encoding/json] writes for a [topic]: a field tagged
    [omitempty] is left out when its slice has length zero. *)
Definition json_keys (t : topic) : list string :=
  "name"%string ::
  (if (len (TPartitions t) =? 0)%nat then [] else ["partitions"%string]).

Section ReadTopic.
Context `{RegexpEngine}.
Variable cmd : topicCmd.

(** The topics kept by the filter loop of [run]. *)
Fixpoint filterTopics (all : list string) (topics : list string) : list string :=
  match all with
  | [] => topics
  | a :: all' =>
    if MatchString (filter cmd) a
    then filterTopics all' (topics ++ [a])
    else filterTopics all' topics
  end.

(** The body of the partition loop of [readTopic], up to the [append]. *)
Definition readPartition (name : string) (p : Z) : result partition :=
  let np := {| Id := p; OldestOffset := 0; NewestOffset := 0;
               PLeader := ""; PReplicas := None; ISRs := None |} in
  let! oldest := GetOffset (client cmd) name p OffsetOldest in
  let np := {| Id := Id np; OldestOffset := oldest;
               NewestOffset := NewestOffset np; PLeader := PLeader np;
               PReplicas := PReplicas np; ISRs := ISRs np |} in
  let! newest := GetOffset (client cmd) name p OffsetNewest in
  let np := {| Id := Id np; OldestOffset := OldestOffset np;
               NewestOffset := newest; PLeader := PLeader np;
               PReplicas := PReplicas np; ISRs := ISRs np |} in
  let! np :=
    (if leaders cmd
     then let! led := Leader (client cmd) name p in
          Ok {| Id := Id np; OldestOffset := OldestOffset np;
                NewestOffset := NewestOffset np; PLeader := Addr led;
                PReplicas := PReplicas np; ISRs := ISRs np |}
     else Ok np) in
  if replicas cmd
  then let! rs := Replicas (client cmd) name p in
       let np := {| Id := Id np; OldestOffset := OldestOffset np;
                    NewestOffset := NewestOffset np; PLeader := PLeader np;
                    PReplicas := rs; ISRs := ISRs np |} in
       let! isrs := InSyncReplicas (client cmd) name p in
       Ok {| Id := Id np; OldestOffset := OldestOffset np;
             NewestOffset := NewestOffset np; PLeader := PLeader np;
             PReplicas := PReplicas np; ISRs := isrs |}
  else Ok np.

(** The partition loop: the first failure returns the record built so
    far together with the error. *)
Fixpoint readPartitions (name : string) (ps : list Z) (top : topic)
  : topic * option error :=
  match ps with
  | [] => (top, None)
  | p :: ps' =>
    match readPartition name p with
    | Err e => (top, Some e)
    | Ok np =>
      readPartitions name ps'
        {| Name := Name top; TPartitions := append (TPartitions top) np |}
    end
  end.

Definition readTopic (name : string) : topic * option error :=
  let top := {| Name := name; TPartitions := None |} in
  if negb (partitions cmd) then (top, None)
  else
    match Partitions (client cmd) name with
    | Err e => (top, Some e)
    | Ok ps => readPartitions name (elems ps) top
    end.

(** Some call made for partition [p] fails: either offset, the leader
    when leaders are asked for, the replicas or in-sync replicas when
    replicas are asked for. *)
Definition partition_fails (name : string) (p : Z) : Prop :=
  call_fails (GetOffset (client cmd) name p OffsetOldest) \/
  call_fails (GetOffset (client cmd) name p OffsetNewest) \/
  (leaders cmd = true /\ call_fails (Leader (client cmd) name p)) \/
  (replicas cmd = true /\
   (call_fails (Replicas (client cmd) name p) \/
    call_fails (InSyncReplicas (client cmd) name p))).


End ReadTopic.

End Topic.

(** ** Part III.  The concurrent pipeline ([run] and the [print] method)

    Goroutines are modelled as tasks of a labelled transition system; a
    step is one task (or, for a rendezvous on an unbuffered channel, a
    sender and a receiver together) advancing to its next blocking or
    effectful statement.  Every interleaving is a run. *)

Module Pipeline.
Import Topic.

(** [printContext{output: top, done: make(chan struct{})}]; [done] names
    a channel of the store. *)
Record printContext : Type := {
  output : topic;
  done : nat
}.

(** Where a worker goroutine
    [func(top string) { cmd.print(top, out); wg.Done() }] stands. *)
Inductive worker_pc : Type :=
  | WStart
  | WSend (ctx : printContext)
  | WWait (ctx : printContext)
  | WReturned
  | WExit.

Record worker : Type := {
  wname : string;
  wpc : worker_pc
}.

(** Modelled from the spec: the serializer [print(in, pretty)] started by
    [go print(out, cmd.pretty)] is not among the source files.  It is
    either waiting for the next submission, writing the bytes of the
    record it received, or stopped. *)
Inductive serializer : Type :=
  | SRecv
  | SWrite (ctx : printContext) (rest : list ascii)
  | SStopped.

Inductive ser_action : Type :=
  | SaRecv (ctx : printContext)
  | SaClosed
  | SaWrite (b : ascii)
  | SaSignal (d : nat).

(** Where [run] stands, from the call of [client.Topics()] on. *)
Inductive orchestrator : Type :=
  | OListing
  | OGoPrint (topics : list string)
  | OSpawn (rest : list string)
  | OWait
  | OReturned
  | OExited (code : Z).

Record state : Type := {
  orch : orchestrator;
  sers : list serializer;
  workers : list worker;
  wg : Z;
  out_closed : bool;
  dones : list bool;
  stdout : list ascii;
  stderr : list string
}.

Inductive event : Type :=
  | EvTopics
  | EvFail
  | EvGoPrint
  | EvGoWorker
  | EvLoopEnd
  | EvWaitReturn
  | EvRead (i : nat)
  | EvReport (i : nat)
  | EvHandoff (i j : nat)
  | EvWrite (j : nat) (b : ascii)
  | EvAck (j : nat)
  | EvStop (j : nat)
  | EvWake (i : nat)
  | EvDone (i : nat).

Definition nl : string := String (ascii_of_nat 10) EmptyString.

(** [failf("failed to read topics err=%v", err)] *)
Definition topics_failure (e : error) : string :=
  ("failed to read topics err=" +:+ e +:+ nl)%string.

(** [fmt.Fprintf(os.Stderr, "failed to read info for topic %s. err=%v\n", name, err)] *)
Definition topic_failure (name : string) (e : error) : string :=
  ("failed to read info for topic " +:+ name +:+ ". err=" +:+ e +:+ nl)%string.

Definition init : state :=
  {| orch := OListing; sers := []; workers := []; wg := 0;
     out_closed := false; dones := []; stdout := []; stderr := [] |}.

Definition set_orch (s : state) (o : orchestrator) : state :=
  {| orch := o; sers := sers s; workers := workers s; wg := wg s;
     out_closed := out_closed s; dones := dones s; stdout := stdout s;
     stderr := stderr s |}.

Definition set_sers (s : state) (l : list serializer) : state :=
  {| orch := orch s; sers := l; workers := workers s; wg := wg s;
     out_closed := out_closed s; dones := dones s; stdout := stdout s;
     stderr := stderr s |}.

Definition set_workers (s : state) (l : list worker) : state :=
  {| orch := orch s; sers := sers s; workers := l; wg := wg s;
     out_closed := out_closed s; dones := dones s; stdout := stdout s;
     stderr := stderr s |}.

Definition set_wg (s : state) (n : Z) : state :=
  {| orch := orch s; sers := sers s; workers := workers s; wg := n;
     out_closed := out_closed s; dones := dones s; stdout := stdout s;
     stderr := stderr s |}.

Definition set_dones (s : state) (l : list bool) : state :=
  {| orch := orch s; sers := sers s; workers := workers s; wg := wg s;
     out_closed := out_closed s; dones := l; stdout := stdout s;
     stderr := stderr s |}.

Definition write_stdout (s : state) (b : ascii) : state :=
  {| orch := orch s; sers := sers s; workers := workers s; wg := wg s;
     out_closed := out_closed s; dones := dones s;
     stdout := stdout s ++ [b]; stderr := stderr s |}.

Definition write_stderr (s : state) (line : string) : state :=
  {| orch := orch s; sers := sers s; workers := workers s; wg := wg s;
     out_closed := out_closed s; dones := dones s; stdout := stdout s;
     stderr := stderr s ++ [line] |}.


Section Run.
Context `{RegexpEngine}.

(** The bytes written for one record; formatting is outside the model. *)
Variable marshal : bool -> topic -> list ascii.

Variable cmd : topicCmd.

(** Modelled from the spec: the loop of the serializer [print(in, pretty)],
    which is not among the source files.  It receives one submission at a
    time, writes that record to the sink, signals the submission's
    acknowledgment channel, and ends once its input is closed and
    drained. *)
Inductive ser_trans : serializer -> ser_action -> serializer -> Prop :=
  | ser_recv ctx :
      ser_trans SRecv (SaRecv ctx)
                (SWrite ctx (marshal (pretty cmd) (output ctx)))
  | ser_closed :
      ser_trans SRecv SaClosed SStopped
  | ser_write ctx b rest :
      ser_trans (SWrite ctx (b :: rest)) (SaWrite b) (SWrite ctx rest)
  | ser_signal ctx :
      ser_trans (SWrite ctx []) (SaSignal (done ctx)) SRecv.

Inductive step : state -> event -> state -> Prop :=
  (* all, err = cmd.client.Topics(), then the filter loop *)
  | step_topics s all :
      orch s = OListing ->
      Topics (client cmd) = Ok all ->
      step s EvTopics (set_orch s (OGoPrint (filterTopics cmd all [])))
  (* failf("failed to read topics err=%v", err) *)
  | step_fail s e :
      orch s = OListing ->
      Topics (client cmd) = Err e ->
      step s EvFail (write_stderr (set_orch s (OExited 1)) (topics_failure e))
  (* go print(out, cmd.pretty) *)
  | step_go_print s topics :
      orch s = OGoPrint topics ->
      step s EvGoPrint
           (set_sers (set_orch s (OSpawn topics)) (sers s ++ [SRecv]))
  (* wg.Add(1); go func(top string) {...}(tn) *)
  | step_go_worker s tn rest :
      orch s = OSpawn (tn :: rest) ->
      step s EvGoWorker
           (set_workers (set_wg (set_orch s (OSpawn rest)) (wg s + 1)%Z)
                        (workers s ++ [{| wname := tn; wpc := WStart |}]))
  | step_loop_end s :
      orch s = OSpawn [] ->
      step s EvLoopEnd (set_orch s OWait)
  (* wg.Wait() *)
  | step_wait_return s :
      orch s = OWait ->
      wg s = 0%Z ->
      step s EvWaitReturn (set_orch s OReturned)
  (* top, err = cmd.readTopic(name) with err == nil;
     ctx := printContext{output: top, done: make(chan struct{})} *)
  | step_read s i name top :
      workers s !! i = Some {| wname := name; wpc := WStart |} ->
      readTopic cmd name = (top, None) ->
      step s (EvRead i)
           (set_workers
              (set_dones s (dones s ++ [false]))
              (<[i := {| wname := name;
                         wpc := WSend {| output := top;
                                         done := length (dones s) |} |}]>
                 (workers s)))
  (* err != nil: report on stderr and return *)
  | step_report s i name top e :
      workers s !! i = Some {| wname := name; wpc := WStart |} ->
      readTopic cmd name = (top, Some e) ->
      step s (EvReport i)
           (set_workers
              (write_stderr s (topic_failure name e))
              (<[i := {| wname := name; wpc := WReturned |}]> (workers s)))
  (* out <- ctx meets the serializer's receive *)
  | step_handoff s i j name ctx x x' :
      workers s !! i = Some {| wname := name; wpc := WSend ctx |} ->
      sers s !! j = Some x ->
      ser_trans x (SaRecv ctx) x' ->
      out_closed s = false ->
      step s (EvHandoff i j)
           (set_workers
              (set_sers s (<[j := x']> (sers s)))
              (<[i := {| wname := name; wpc := WWait ctx |}]> (workers s)))
  (* the serializer writes to os.Stdout *)
  | step_write s j x b x' :
      sers s !! j = Some x ->
      ser_trans x (SaWrite b) x' ->
      step s (EvWrite j b)
           (write_stdout (set_sers s (<[j := x']> (sers s))) b)
  (* the serializer signals ctx.done *)
  | step_ack s j x d x' :
      sers s !! j = Some x ->
      ser_trans x (SaSignal d) x' ->
      step s (EvAck j)
           (set_dones (set_sers s (<[j := x']> (sers s)))
                      (<[d := true]> (dones s)))
  (* the serializer finds its input closed *)
  | step_stop s j x x' :
      sers s !! j = Some x ->
      ser_trans x SaClosed x' ->
      out_closed s = true ->
      step s (EvStop j) (set_sers s (<[j := x']> (sers s)))
  (* <-ctx.done *)
  | step_wake s i name ctx :
      workers s !! i = Some {| wname := name; wpc := WWait ctx |} ->
      dones s !! done ctx = Some true ->
      step s (EvWake i)
           (set_workers s
              (<[i := {| wname := name; wpc := WReturned |}]> (workers s)))
  (* wg.Done() *)
  | step_done s i name :
      workers s !! i = Some {| wname := name; wpc := WReturned |} ->
      step s (EvDone i)
           (set_workers
              (set_wg s (wg s - 1)%Z)
              (<[i := {| wname := name; wpc := WExit |}]> (workers s))).

(** States reached from the start by some interleaving. *)
Inductive reachable : state -> Prop :=
  | reach_init : reachable init
  | reach_step s ev s' : reachable s -> step s ev s' -> reachable s'.



(** *** Bookkeeping for the invariants *)




















End Run.

(** *** A small cluster for concrete runs *)

Definition demo_client : Client := {|
  Topics := Ok ["a"; "b"; "c"]%string;
  Partitions := fun name =>
    if String.eqb name "a" then Ok (Some [0; 1]%Z)
    else if String.eqb name "b" then Err "boom"%string
    else Ok (Some []);
  GetOffset := fun _ _ which =>
    match which with
    | OffsetOldest => Ok 0%Z
    | OffsetNewest => Ok 10%Z
    end;
  Leader := fun _ _ => Ok {| Addr := "broker:9092" |};
  Replicas := fun _ _ => Ok (Some [1; 2]%Z);
  InSyncReplicas := fun _ _ => Ok (Some [1]%Z)
|}.

(** Every flag on; topic ["b"] fails. *)
Definition demo_cmd : @topicCmd literal_engine := {|
  filter := ""%string : @Regexp literal_engine;
  partitions := true;
  leaders := true;
  replicas := true;
  pretty := false;
  client := demo_client
|}.

(** Names only: no partition detail is retrieved, nothing can fail. *)
Definition demo_cmd_bare : @topicCmd literal_engine := {|
  filter := ""%string : @Regexp literal_engine;
  partitions := false;
  leaders := false;
  replicas := false;
  pretty := false;
  client := demo_client
|}.

(** Names only, kept when they contain the letter [a]. *)
Definition demo_cmd_grep : @topicCmd literal_engine := {|
  filter := "a"%string : @Regexp literal_engine;
  partitions := false;
  leaders := false;
  replicas := false;
  pretty := false;
  client := demo_client
|}.

(** A stand-in for the formatter: the name, then the number of listed
    partitions, then a newline. *)
Definition demo_marshal (pretty : bool) (t : topic) : list ascii :=
  list_ascii_of_string (Name t)
  ++ repeat "*"%char (len (TPartitions t)) ++ [ascii_of_nat 10].

End Pipeline.

(** ** Part III-b.  Connection set-up and argument handling
    ([common.go], [parseArgs] of [topic.go]) *)

Module Common.
Import Topic.

(** [strings.Split(s, sep)] for a separator of one byte: the pieces
    between the separators, in order; never an empty list. *)
Fixpoint Split (s : string) (sep : ascii) : list string :=
  match s with
  | EmptyString => [EmptyString]
  | String c s' =>
    if Ascii.eqb c sep then EmptyString :: Split s' sep
    else
      match Split s' sep with
      | [] => [String c EmptyString]
      | h :: t => String c h :: t
      end
  end.

(** [strings.Contains(s, sep)] for a separator of one byte. *)
Fixpoint Contains (s : string) (c : ascii) : bool :=
  match s with
  | EmptyString => false
  | String x s' => Ascii.eqb x c || Contains s' c
  end.

(** The character class [a-zA-Z0-9_-] of
    [invalidClientIDCharactersRegExp], which matches its complement. *)
Definition validClientIDChar (c : ascii) : bool :=
  let n := nat_of_ascii c in
  (97 <=? n) && (n <=? 122) || (65 <=? n) && (n <=? 90)
  || (48 <=? n) && (n <=? 57) || (n =? 95) || (n =? 45).

(** [invalidClientIDCharactersRegExp.ReplaceAllString(u, "")]: every byte
    outside the class is part of a matched character and goes. *)
Fixpoint removeInvalid (u : string) : string :=
  match u with
  | EmptyString => EmptyString
  | String c u' =>
    if validClientIDChar c then String c (removeInvalid u')
    else removeInvalid u'
  end.

Definition backslash : ascii := ascii_of_nat 92.

(** [sanitizeUsername]; [None] stands for the index panic of
    [s[len(s)-1]] on an empty slice. *)
Definition sanitizeUsername (u : string) : option string :=
  let s := Split u backslash in
  match last s with
  | None => None
  | Some u' => Some (removeInvalid u')
  end.

Inductive KafkaVersion : Type :=
  | V0_8_2_0 | V0_8_2_1 | V0_8_2_2 | V0_9_0_0 | V0_9_0_1 | V0_10_0_0.

Definition kafkaVersion (s : string) : KafkaVersion :=
  if String.eqb s "v0.8.2.0" then V0_8_2_0
  else if String.eqb s "v0.8.2.1" then V0_8_2_1
  else if String.eqb s "v0.8.2.2" then V0_8_2_2
  else if String.eqb s "v0.9.0.0" then V0_9_0_0
  else if String.eqb s "v0.9.0.1" then V0_9_0_1
  else V0_10_0_0.

Definition known_versions : list string :=
  ["v0.8.2.0"; "v0.8.2.1"; "v0.8.2.2"; "v0.9.0.0"; "v0.9.0.1"]%string.

Record connectionArgs : Type := {
  version : string;
  tls : bool;
  clientCert : string
}.

(** How a call ends: it returns, it panics, or it ends the process. *)
Inductive outcome (A : Type) : Type :=
  | Returns (a : A)
  | Panics
  | Exits (code : Z).
Arguments Returns {A} a.
Arguments Panics {A}.
Arguments Exits {A} code.

Section Config.

(** Certificates and their loader [tls.LoadX509KeyPair] are external. *)
Variable Cert : Type.
Variable LoadX509KeyPair : string -> string -> result Cert.

Record tlsConfig : Type := {
  Certificates : list Cert;
  InsecureSkipVerify : bool
}.

(** The fields of [sarama.Config] that [saramaConfig] sets. *)
Record Config : Type := {
  Version : KafkaVersion;
  ClientID : string;
  TLSEnable : bool;
  TLSConfig : option tlsConfig
}.

Record User : Type := { Username : string }.

(** [makeTLSConfig]: [failf] ends the process when the pair cannot be
    loaded. *)
Definition makeTLSConfig (path : string) : outcome tlsConfig :=
  match LoadX509KeyPair path path with
  | Err _ => Exits 1
  | Ok cert => Returns {| Certificates := [cert]; InsecureSkipVerify := true |}
  end.

(** [saramaConfig], given what [user.Current()] yields.  When the lookup
    fails the user pointer is nil, the message is printed and
    [usr.Username] dereferences nil.  What is written to [os.Stderr] is
    left out. *)
Definition saramaConfig (args : connectionArgs) (current : result User)
  : outcome Config :=
  match current with
  | Err _ => Panics
  | Ok usr =>
    match sanitizeUsername (Username usr) with
    | None => Panics
    | Some name =>
      let cfg := {| Version := kafkaVersion (version args);
                    ClientID := ("kt-consume-" +:+ name)%string;
                    TLSEnable := if tls args then true else false;
                    TLSConfig := None |} in
      if String.eqb (clientCert args) "" then Returns cfg
      else
        match makeTLSConfig (clientCert args) with
        | Returns tc =>
          Returns {| Version := Version cfg; ClientID := ClientID cfg;
                     TLSEnable := TLSEnable cfg; TLSConfig := Some tc |}
        | Panics => Panics
        | Exits code => Exits code
        end
    end
  end.

End Config.

(** *** The broker list of [parseArgs] *)

Definition comma : ascii := ascii_of_nat 44.
Definition colon : ascii := ascii_of_nat 58.

(** The loop [for i, b := range cmd.brokers] with its update in place of
    [cmd.brokers[i]]; [todo] are the elements still to visit. *)
Fixpoint addDefaultPorts (brokers : list string) (i : nat) (todo : list string)
  : list string :=
  match todo with
  | [] => brokers
  | b :: rest =>
    addDefaultPorts
      (if negb (Contains b colon) then <[i := (b +:+ ":9092")%string]> brokers
       else brokers)
      (S i) rest
  end.

(** [cmd.brokers] as [parseArgs] leaves it, from the [-brokers] flag and
    the environment variable [KT_BROKERS]. *)
Definition resolveBrokers (flagBrokers envBrokers : string) : list string :=
  let brokers :=
    if String.eqb flagBrokers ""
    then (if negb (String.eqb envBrokers "") then envBrokers
          else "localhost:9092"%string)
    else flagBrokers in
  let split := Split brokers comma in
  addDefaultPorts split 0 split.

(** What the loop does to one entry. *)
Definition withPort (b : string) : string :=
  if Contains b colon then b else (b +:+ ":9092")%string.

Definition allValid (s : string) : Prop :=
  Forall (fun c => validClientIDChar c = true) (list_ascii_of_string s).

(** The number of separators in a string. *)
Fixpoint count_sep (s : string) (sep : ascii) : nat :=
  match s with
  | EmptyString => 0
  | String c s' => (if Ascii.eqb c sep then 1 else 0) + count_sep s' sep
  end.

(** The broker string [parseArgs] goes by: the flag, else the
    environment variable, else the default. *)
Definition chosenBrokers (flagBrokers envBrokers : string) : string :=
  if String.eqb flagBrokers ""
  then (if String.eqb envBrokers "" then "localhost:9092"%string else envBrokers)
  else flagBrokers.

End Common.

(** ** Part III-c.  Notions used to state further properties *)

Module Properties.
Import Topic Pipeline.

(** Keys made of ASCII bytes only. *)
Definition ascii_only (s : string) : Prop :=
  Forall (fun b => (b < 0x80)%Z) (Hasher.bytes s).

(** What the client reports for a partition is what its record holds. *)
Definition partition_as_reported `{RegexpEngine} (cmd : topicCmd) (name : string)
           (np : partition) : Prop :=
  GetOffset (client cmd) name (Id np) OffsetOldest = Ok (OldestOffset np) /\
  GetOffset (client cmd) name (Id np) OffsetNewest = Ok (NewestOffset np) /\
  (if leaders cmd
   then exists led, Leader (client cmd) name (Id np) = Ok led /\
                    PLeader np = Addr led
   else PLeader np = ""%string) /\
  (if replicas cmd
   then Replicas (client cmd) name (Id np) = Ok (PReplicas np) /\
        InSyncReplicas (client cmd) name (Id np) = Ok (ISRs np)
   else PReplicas np = None /\ ISRs np = None).

(** [e] is the error of the first call for partition [p] that fails. *)
Definition first_failure `{RegexpEngine} (cmd : topicCmd) (name : string) (p : Z)
           (e : error) : Prop :=
  GetOffset (client cmd) name p OffsetOldest = Err e \/
  (~ call_fails (GetOffset (client cmd) name p OffsetOldest) /\
   (GetOffset (client cmd) name p OffsetNewest = Err e \/
    (~ call_fails (GetOffset (client cmd) name p OffsetNewest) /\
     ((leaders cmd = true /\ Leader (client cmd) name p = Err e) \/
      ((leaders cmd = true -> ~ call_fails (Leader (client cmd) name p)) /\
       replicas cmd = true /\
       (Replicas (client cmd) name p = Err e \/
        (~ call_fails (Replicas (client cmd) name p) /\
         InSyncReplicas (client cmd) name p = Err e))))))).

Section Counted.
Context `{RegexpEngine}.
Variable marshal : bool -> topic -> list ascii.
Variable cmd : topicCmd.


End Counted.

(** The state in which [failf] leaves the process when the topic listing
    fails with [e]. *)
Definition listing_failed (e : error) : state :=
  write_stderr (set_orch init (OExited 1)) (topics_failure e).


(** A cluster that cannot be reached. *)
Definition demo_cmd_down : @topicCmd literal_engine := {|
  filter := ""%string : @Regexp literal_engine;
  partitions := true;
  leaders := false;
  replicas := false;
  pretty := false;
  client := {| Topics := Err "no brokers"%string;
               Partitions := fun _ => Err "no brokers"%string;
               GetOffset := fun _ _ _ => Err "no brokers"%string;
               Leader := fun _ _ => Err "no brokers"%string;
               Replicas := fun _ _ => Err "no brokers"%string;
               InSyncReplicas := fun _ _ => Err "no brokers"%string |}
|}.

End Properties.

(** ** Part IV.  Properties of the hasher *)

Module HasherProofs.
Import Hasher.
Local Open Scope Z_scope.

Lemma wrap32_range z : is_int32 (wrap32 z).
Proof.
  unfold is_int32, wrap32, int32_min, int32_max.
  pose proof (Z.mod_pos_bound (z + 2^31) (2^32) ltac:(lia)). lia.
Qed.

Lemma wrap32_id z : is_int32 z -> wrap32 z = z.
Proof.
  unfold is_int32, wrap32, int32_min, int32_max. intros Hz.
  rewrite Z.mod_small by lia. lia.
Qed.

Lemma wrap32_add_l a b : wrap32 (wrap32 a + b) = wrap32 (a + b).
Proof.
  unfold wrap32. f_equal.
  replace ((a + 2^31) mod 2^32 - 2^31 + b + 2^31)
    with ((a + 2^31) mod 2^32 + b) by lia.
  rewrite Zplus_mod_idemp_l. f_equal. lia.
Qed.

Lemma wrap32_mul_r a b : wrap32 (b * wrap32 a) = wrap32 (b * a).
Proof.
  unfold wrap32. f_equal.
  replace (b * ((a + 2^31) mod 2^32 - 2^31) + 2^31)
    with (b * ((a + 2^31) mod 2^32) + (2^31 - b * 2^31)) by lia.
  rewrite <- Zplus_mod_idemp_l, Zmult_mod_idemp_r, Zplus_mod_idemp_l.
  f_equal. lia.
Qed.

Lemma add_mul32_ref h u : add32 (mul32 h 31) u = ref_step h u.
Proof.
  unfold add32, mul32, ref_step. rewrite wrap32_add_l. f_equal. lia.
Qed.


Lemma bytes_are_bytes s : Forall is_byte (bytes s).
Proof.
  unfold bytes. apply Forall_map, Forall_forall. intros a _. unfold is_byte.
  pose proof (N_ascii_bounded a). lia.
Qed.

Lemma land_mask_bounds b n : 0 <= n -> 0 <= Z.land b (Z.ones n) < 2 ^ n.
Proof.
  intros Hn. rewrite Z.land_ones by assumption. apply Z.mod_pos_bound. lia.
Qed.

Lemma lor_le_add a b : 0 <= a -> 0 <= b -> 0 <= Z.lor a b <= a + b.
Proof.
  intros Ha Hb. split; [apply Z.lor_nonneg; auto|].
  pose proof (Z.add_lor_land a b).
  assert (0 <= Z.land a b) by (apply Z.land_nonneg; auto). lia.
Qed.

Lemma first_lead s0 sz lo hi :
  first s0 = Lead sz lo hi ->
  locb <= lo /\ hi <= hicb /\
  ((sz = 2%nat /\ 0xC2 <= s0 < 0xE0) \/
   (sz = 3%nat /\ 0xE0 <= s0 < 0xF0) \/
   (sz = 4%nat /\ 0xF0 <= s0 < 0xF4) \/
   (sz = 4%nat /\ s0 = 0xF4 /\ hi = 0x8F)).
Proof.
  unfold first, locb, hicb.
  repeat match goal with
         | |- context [if ?c then _ else _] => destruct c eqn:?
         end; intros [= <- <- <-]; lia.
Qed.

Lemma first_as s0 : first s0 = AS -> s0 < 0x80.
Proof.
  unfold first.
  repeat match goal with
         | |- context [if ?c then _ else _] => destruct c eqn:?
         end; intros [=]; lia.
Qed.

Lemma out_of_false lo hi b : out_of lo hi b = false -> lo <= b <= hi.
Proof. unfold out_of. intros Hb. apply orb_false_iff in Hb. lia. Qed.

Lemma rune2_bound s0 s1 : is_code_point (rune2 s0 s1).
Proof.
  unfold rune2, is_code_point, mask2, maskx.
  pose proof (land_mask_bounds s0 5 ltac:(lia)) as H0.
  pose proof (land_mask_bounds s1 6 ltac:(lia)) as H1.
  change (Z.ones 5) with 0x1F in H0. change (Z.ones 6) with 0x3F in H1.
  rewrite Z.shiftl_mul_pow2 by lia.
  pose proof (lor_le_add (Z.land s0 0x1F * 2^6) (Z.land s1 0x3F)). lia.
Qed.

Lemma rune3_bound s0 s1 s2 : is_code_point (rune3 s0 s1 s2).
Proof.
  unfold rune3, is_code_point, mask3, maskx.
  pose proof (land_mask_bounds s0 4 ltac:(lia)) as H0.
  pose proof (land_mask_bounds s1 6 ltac:(lia)) as H1.
  pose proof (land_mask_bounds s2 6 ltac:(lia)) as H2.
  change (Z.ones 4) with 0x0F in H0. change (Z.ones 6) with 0x3F in H1, H2.
  rewrite !Z.shiftl_mul_pow2 by lia.
  pose proof (lor_le_add (Z.land s0 0x0F * 2^12) (Z.land s1 0x3F * 2^6)).
  pose proof (lor_le_add (Z.lor (Z.land s0 0x0F * 2^12) (Z.land s1 0x3F * 2^6))
                         (Z.land s2 0x3F)).
  lia.
Qed.

Lemma rune4_bound s0 s1 s2 s3 :
  (0xF0 <= s0 < 0xF4) \/ (s0 = 0xF4 /\ 0x80 <= s1 <= 0x8F) ->
  is_code_point (rune4 s0 s1 s2 s3).
Proof.
  intros Hs. unfold rune4, is_code_point, mask4, maskx.
  pose proof (land_mask_bounds s1 6 ltac:(lia)) as H1.
  pose proof (land_mask_bounds s2 6 ltac:(lia)) as H2.
  pose proof (land_mask_bounds s3 6 ltac:(lia)) as H3.
  change (Z.ones 6) with 0x3F in H1, H2, H3.
  rewrite !Z.shiftl_mul_pow2 by lia.
  assert (H0 : 0 <= Z.land s0 0x07 /\
               (Z.land s0 0x07 <= 3 \/
                (Z.land s0 0x07 = 4 /\ Z.land s1 0x3F <= 15))).
  { change 0x07 with (Z.ones 3). change 0x3F with (Z.ones 6).
    rewrite !Z.land_ones by lia.
    destruct Hs as [Hs | [-> Hs]].
    - split; [apply Z.mod_pos_bound; lia|]. left.
      assert (s0 mod 2^3 = s0 - 0xF0); [|lia].
      symmetry. apply (Z.mod_unique_pos _ _ 30); lia.
    - split; [vm_compute; discriminate|]. right. split; [reflexivity|].
      assert (s1 mod 2^6 = s1 - 0x80); [|lia].
      symmetry. apply (Z.mod_unique_pos _ _ 2); lia. }
  pose proof (lor_le_add (Z.land s0 0x07 * 2^18) (Z.land s1 0x3F * 2^12)).
  pose proof (lor_le_add (Z.lor (Z.land s0 0x07 * 2^18) (Z.land s1 0x3F * 2^12))
                         (Z.land s2 0x3F * 2^6)).
  pose proof (lor_le_add
    (Z.lor (Z.lor (Z.land s0 0x07 * 2^18) (Z.land s1 0x3F * 2^12))
           (Z.land s2 0x3F * 2^6)) (Z.land s3 0x3F)).
  lia.
Qed.

Lemma runes_code_points_aux n :
  forall l, (length l <= n)%nat -> Forall is_byte l ->
            Forall is_code_point (runes l).
Proof.
  induction n as [|n IH]; intros l Hlen Hl.
  - destruct l; [constructor | simpl in Hlen; lia].
  - destruct l as [|s0 t0]; [constructor|].
    assert (Herr : is_code_point RuneError) by (unfold is_code_point, RuneError; lia).
    assert (Ht0 : Forall is_code_point (runes t0)).
    { apply IH; [simpl in Hlen; lia | by inversion Hl]. }
    inversion Hl as [|? ? Hs0 Hl0]; subst.
    cbn [runes]. destruct (first s0) as [| |sz lo hi] eqn:Hf.
    + constructor; [|done]. apply first_as in Hf. unfold is_code_point, is_byte in *. lia.
    + by constructor.
    + apply first_lead in Hf as (Hlo & Hhi & Hsz).
      destruct t0 as [|s1 t1]; [by constructor|].
      destruct (out_of lo hi s1) eqn:H1; [by constructor|].
      apply out_of_false in H1.
      inversion Hl0 as [|? ? Hs1 Hl1]; subst.
      assert (Ht1 : Forall is_code_point (runes t1)).
      { apply IH; [simpl in Hlen; lia | done]. }
      destruct (sz <=? 2)%nat eqn:Hsz2.
      { constructor; [apply rune2_bound | done]. }
      destruct t1 as [|s2 t2]; [by constructor|].
      destruct (out_of locb hicb s2) eqn:H2; [by constructor|].
      inversion Hl1 as [|? ? Hs2 Hl2]; subst.
      assert (Ht2 : Forall is_code_point (runes t2)).
      { apply IH; [simpl in Hlen; lia | done]. }
      destruct (sz <=? 3)%nat eqn:Hsz3.
      { constructor; [apply rune3_bound | done]. }
      destruct t2 as [|s3 t3]; [by constructor|].
      destruct (out_of locb hicb s3) eqn:H3; [by constructor|].
      inversion Hl2 as [|? ? Hs3 Hl3]; subst.
      constructor.
      * apply rune4_bound.
        apply Nat.leb_gt in Hsz2, Hsz3. unfold locb in *. lia.
      * apply IH; [simpl in Hlen; lia | done].
Qed.

Lemma runes_code_points s : Forall is_code_point (runes (bytes s)).
Proof.
  eapply runes_code_points_aux; [reflexivity | apply bytes_are_bytes].
Qed.


Lemma EncodeRune_bmp r : r < 0x10000 -> EncodeRune r = (0xFFFD, 0xFFFD).
Proof.
  intros Hr. unfold EncodeRune, surrSelf.
  destruct (r <? 0x10000) eqn:E; [reflexivity | lia].
Qed.

Lemma EncodeRune_supplementary r :
  0x10000 <= r <= 0x10FFFF ->
  EncodeRune r = (0xD800 + (r - 0x10000) / 0x400,
                  0xDC00 + (r - 0x10000) mod 0x400).
Proof.
  intros Hr. unfold EncodeRune, surrSelf, maxRune, surr1, surr2.
  destruct (r <? 0x10000) eqn:E1; [lia|].
  destruct (0x10FFFF <? r) eqn:E2; [lia|]. cbn [orb].
  change 0x3ff with (Z.ones 10). rewrite !Z.land_ones by lia.
  rewrite Z.shiftr_div_pow2 by lia. change (2 ^ 10) with 0x400.
  rewrite (Z.mod_small ((r - 0x10000) / 0x400)); [reflexivity|].
  split; [apply Z.div_pos; lia | apply Z.div_lt_upper_bound; lia].
Qed.

Lemma surrogates_of r :
  0x10000 <= r <= 0x10FFFF ->
  0xD800 <= 0xD800 + (r - 0x10000) / 0x400 <= 0xDBFF /\
  0xDC00 <= 0xDC00 + (r - 0x10000) mod 0x400 <= 0xDFFF /\
  r = 0x10000 + (r - 0x10000) / 0x400 * 0x400 + (r - 0x10000) mod 0x400.
Proof.
  intros Hr.
  pose proof (Z.mod_pos_bound (r - 0x10000) 0x400 ltac:(lia)).
  pose proof (Z.div_mod (r - 0x10000) 0x400 ltac:(lia)).
  assert (0 <= (r - 0x10000) / 0x400 < 0x400).
  { split; [apply Z.div_pos; lia | apply Z.div_lt_upper_bound; lia]. }
  lia.
Qed.

Lemma hashStep_bmp h r : r < 0x10000 -> hashStep h r = ref_step h r.
Proof.
  intros Hr. unfold hashStep. rewrite EncodeRune_bmp by assumption.
  cbn. apply add_mul32_ref.
Qed.

Lemma hashStep_supplementary h r :
  0x10000 <= r <= 0x10FFFF ->
  hashStep h r =
    ref_step (ref_step h (0xD800 + (r - 0x10000) / 0x400))
             (0xDC00 + (r - 0x10000) mod 0x400).
Proof.
  intros Hr. unfold hashStep. rewrite EncodeRune_supplementary by assumption.
  destruct (surrogates_of r Hr) as (Hhi & _ & _).
  destruct (0xD800 + (r - 0x10000) / 0x400 =? 0xfffd) eqn:E; [lia|].
  cbn [andb]. by rewrite !add_mul32_ref.
Qed.

Lemma hashStep_units h r :
  is_code_point r -> hashStep h r = fold_left ref_step (utf16_of_rune r) h.
Proof.
  intros Hr. unfold utf16_of_rune, is_bmp, is_code_point in *.
  destruct (r <? 0x10000) eqn:E.
  - cbn. apply hashStep_bmp. lia.
  - cbn. apply hashStep_supplementary. lia.
Qed.

Lemma fold_hashStep_units l h :
  Forall is_code_point l ->
  fold_left hashStep l h = fold_left ref_step (flat_map utf16_of_rune l) h.
Proof.
  intros Hl. revert h. induction Hl as [|r l Hr Hl IH]; intros h; [reflexivity|].
  cbn [fold_left flat_map]. rewrite fold_left_app, <- hashStep_units by assumption.
  apply IH.
Qed.

Lemma ref_step_int32 h u : is_int32 (ref_step h u).
Proof. apply wrap32_range. Qed.

Lemma ref_hash_int32 l : is_int32 (ref_hash l).
Proof.
  unfold ref_hash. destruct l as [|u l] using rev_ind.
  - unfold is_int32, int32_min, int32_max. cbn. lia.
  - rewrite fold_left_app. apply ref_step_int32.
Qed.

Lemma hashCode_ref s : hashCode s = ref_hash (utf16_units s).
Proof. apply fold_hashStep_units, runes_code_points. Qed.

Lemma hashCode_int32 s : is_int32 (hashCode s).
Proof. rewrite hashCode_ref. apply ref_hash_int32. Qed.


Lemma kafkaAbs_range i : is_int32 i -> 0 <= kafkaAbs i <= int32_max.
Proof.
  unfold is_int32, kafkaAbs, int32_min, int32_max. intros Hi.
  destruct (i =? -2147483648) eqn:E1; [lia|].
  destruct (i <? 0) eqn:E2; [|lia].
  unfold mul32. rewrite wrap32_id; unfold is_int32, int32_min, int32_max; lia.
Qed.

Lemma kafkaAbs_neg i : int32_min < i < 0 -> kafkaAbs i = - i.
Proof.
  unfold kafkaAbs, int32_min. intros Hi.
  destruct (i =? -2147483648) eqn:E1; [lia|].
  destruct (i <? 0) eqn:E2; [|lia].
  unfold mul32. rewrite wrap32_id; unfold is_int32, int32_min, int32_max; lia.
Qed.



(** C2.  For a positive partition count [n], [hashCodePartition]
    returns a partition [p] with [0 <= p < n]. *)
Theorem hashCodePartition_range (key : string) (n : Z) :
  0 < n -> exists p : Z, hashCodePartition key n = Some p /\ 0 <= p < n.
Proof.
  intros Hn. unfold hashCodePartition, rem32.
  destruct (n <=? 0) eqn:E1; [lia|].
  destruct (n =? 0) eqn:E2; [lia|].
  eexists. split; [reflexivity|].
  pose proof (kafkaAbs_range _ (hashCode_int32 key)) as Habs.
  apply Z.rem_bound_pos; lia.
Qed.

Lemma hashCodePartition_range_witness :
  exists p : Z, hashCodePartition "hello world" 7 = Some p /\ 0 <= p < 7.
Proof. apply hashCodePartition_range. lia. Defined.

(** C3.  [kafkaAbs] maps the least 32-bit integer to 0, and a key whose
    hash is that integer goes to partition 0 for every positive partition
    count. *)
Theorem kafkaAbs_min_partition_zero :
  kafkaAbs (-2147483648) = 0 /\
  forall (key : string) (n : Z),
    0 < n -> hashCode key = -2147483648 -> hashCodePartition key n = Some 0.
Proof.
  split; [reflexivity|].
  intros key n Hn Hh. unfold hashCodePartition, rem32. rewrite Hh.
  destruct (n <=? 0) eqn:E1; [lia|].
  destruct (n =? 0) eqn:E2; [lia|].
  change (kafkaAbs (-2147483648)) with 0. by rewrite Z.rem_0_l by lia.
Qed.

Lemma kafkaAbs_min_partition_zero_witness :
  hashCode "polygenelubricants" = -2147483648 /\
  hashCodePartition "polygenelubricants" 7 = Some 0.
Proof.
  split; [vm_compute; reflexivity|].
  apply (proj2 kafkaAbs_min_partition_zero); [lia | vm_compute; reflexivity].
Defined.

(** C4.  [hashCodePartition] returns -1 exactly when the partition count
    is not positive, and it never panics. *)
Theorem hashCodePartition_sentinel (key : string) (n : Z) :
  (n <= 0 -> hashCodePartition key n = Some (-1)) /\
  (hashCodePartition key n = Some (-1) -> n <= 0) /\
  hashCodePartition key n <> None.
Proof.
  split; [|split].
  - intros Hn. unfold hashCodePartition. destruct (n <=? 0) eqn:E; [reflexivity | lia].
  - intros Hp. destruct (Z_le_gt_dec n 0) as [|Hn]; [assumption|].
    destruct (hashCodePartition_range key n ltac:(lia)) as (p & Hp' & Hr).
    rewrite Hp in Hp'. injection Hp' as <-. lia.
  - unfold hashCodePartition, rem32.
    destruct (n <=? 0) eqn:E1; [discriminate|].
    destruct (n =? 0) eqn:E2; [lia | discriminate].
Qed.

Lemma hashCodePartition_sentinel_witness :
  hashCodePartition "key" 0 = Some (-1) /\
  hashCodePartition "key" (-5) = Some (-1).
Proof.
  split.
  - apply (proj1 (hashCodePartition_sentinel "key" 0)). lia.
  - apply (proj1 (hashCodePartition_sentinel "key" (-5))). lia.
Defined.

End HasherProofs.

(** ** Part V.  Properties of topic retrieval *)

Module TopicProofs.
Import Topic.


Section Proofs.
Context `{RegexpEngine}.
Variable cmd : topicCmd.

Lemma filterTopics_filter all acc :
  filterTopics cmd all acc = acc ++ List.filter (MatchString (filter cmd)) all.
Proof.
  revert acc. induction all as [|a all IH]; intros acc;
    cbn [filterTopics List.filter].
  - by rewrite app_nil_r.
  - destruct (MatchString (filter cmd) a); [|by rewrite IH].
    by rewrite IH, <- app_assoc.
Qed.

Lemma MatchString_spans (re : Regexp) (s : string) :
  MatchString re s = true <->
  exists i j, i <= j <= String.length s /\ matches_at re s i j = true.
Proof.
  unfold MatchString. rewrite existsb_exists. split.
  - intros (i & Hi & Hj). apply existsb_exists in Hj as (j & Hj & Hm).
    apply in_seq in Hi, Hj. exists i, j. split; [lia | done].
  - intros (i & j & Hij & Hm). exists i. split; [apply in_seq; lia|].
    apply existsb_exists. exists j. split; [apply in_seq; lia | done].
Qed.

Ltac refute_fail :=
  repeat match goal with
         | H : _ \/ _ |- _ => destruct H as [H|H]
         | H : _ /\ _ |- _ => destruct H as [? H]
         | H : exists _, _ |- _ => destruct H as [? H]
         | H : Ok _ = Err _ |- _ => discriminate H
         | H : false = true |- _ => discriminate H
         end.

Lemma readPartition_fails name p :
  partition_fails cmd name p <-> call_fails (readPartition cmd name p).
Proof.
  unfold partition_fails, readPartition, call_fails, bind.
  destruct (GetOffset (client cmd) name p OffsetOldest) as [o|e1];
    [|split; [eauto | intros _; left; eauto]].
  destruct (GetOffset (client cmd) name p OffsetNewest) as [n|e2];
    [|split; [eauto | intros _; right; left; eauto]].
  destruct (leaders cmd) eqn:Hl.
  - destruct (Leader (client cmd) name p) as [led|e3];
      [|split; [eauto | intros _; right; right; left; eauto]].
    destruct (replicas cmd) eqn:Hr.
    + destruct (Replicas (client cmd) name p) as [rs|e4];
        [|split; [eauto | intros _; right; right; right; eauto]].
      destruct (InSyncReplicas (client cmd) name p) as [isrs|e5];
        [|split; [eauto | intros _; right; right; right; eauto]].
      split; intros Hf; refute_fail.
    + split; intros Hf; refute_fail.
  - destruct (replicas cmd) eqn:Hr.
    + destruct (Replicas (client cmd) name p) as [rs|e4];
        [|split; [eauto | intros _; right; right; right; eauto]].
      destruct (InSyncReplicas (client cmd) name p) as [isrs|e5];
        [|split; [eauto | intros _; right; right; right; eauto]].
      split; intros Hf; refute_fail.
    + split; intros Hf; refute_fail.
Qed.

Lemma readPartition_id name p np :
  readPartition cmd name p = Ok np -> Id np = p.
Proof.
  unfold readPartition, bind.
  destruct (GetOffset (client cmd) name p OffsetOldest); [|discriminate].
  destruct (GetOffset (client cmd) name p OffsetNewest); [|discriminate].
  destruct (leaders cmd); [destruct (Leader (client cmd) name p); [|discriminate]|];
    (destruct (replicas cmd);
     [destruct (Replicas (client cmd) name p); [|discriminate];
      destruct (InSyncReplicas (client cmd) name p); [|discriminate]|]);
    intros [= <-]; reflexivity.
Qed.





Lemma readTopic_flag_off name :
  partitions cmd = false ->
  readTopic cmd name = ({| Name := name; TPartitions := None |}, None).
Proof. unfold readTopic. by intros ->. Qed.

Lemma readTopic_no_partitions name ps :
  partitions cmd = true -> Partitions (client cmd) name = Ok ps -> elems ps = [] ->
  readTopic cmd name = ({| Name := name; TPartitions := None |}, None).
Proof. unfold readTopic. by intros -> -> ->. Qed.

Lemma substring_zero s i : String.substring i 0 s = ""%string.
Proof.
  revert i. induction s as [|c s IH]; intros [|i]; cbn; try reflexivity.
  apply IH.
Qed.

(** C10.  A listed topic name is handed on exactly when the filter
    expression matches some span of it, possibly empty and anywhere in
    the name; the kept names are the listed ones in order; a filter
    compiled from the empty pattern keeps every listed name. *)
Theorem filter_is_unanchored_match (all : list string) :
  (forall a,
      In a (filterTopics cmd all []) <->
      In a all /\
      exists i j, i <= j <= String.length a /\
                  matches_at (filter cmd) a i j = true) /\
  filterTopics cmd all [] = List.filter (MatchString (filter cmd)) all /\
  ((forall re, Compile "" = Ok re ->
               forall s i, i <= String.length s -> matches_at re s i i = true) ->
   Compile "" = Ok (filter cmd) ->
   filterTopics cmd all [] = all).
Proof.
  split; [|split].
  - intros a. rewrite filterTopics_filter. cbn [app].
    rewrite filter_In, MatchString_spans. reflexivity.
  - apply filterTopics_filter.
  - intros Hlaw Hc. rewrite filterTopics_filter. cbn [app].
    apply forallb_filter_id, forallb_forall. intros a _.
    apply MatchString_spans. exists 0, 0. split; [lia|].
    apply (Hlaw _ Hc). lia.
Qed.

End Proofs.

Lemma filter_is_unanchored_match_witness :
  filterTopics Pipeline.demo_cmd ["bab"; "xyz"]%string [] = ["bab"; "xyz"]%string /\
  In "bab"%string (filterTopics Pipeline.demo_cmd_grep ["bab"; "xyz"]%string []) /\
  matches_at (filter Pipeline.demo_cmd_grep) "bab" 0 3 = false.
Proof.
  split; [|split].
  - apply (filter_is_unanchored_match Pipeline.demo_cmd).
    + intros re [= <-] s i Hi. cbn [matches_at literal_engine].
      rewrite Nat.sub_diag, substring_zero, Nat.leb_refl.
      apply Nat.leb_le in Hi. by rewrite Hi.
    + reflexivity.
  - apply (filter_is_unanchored_match Pipeline.demo_cmd_grep).
    split; [by left|]. exists 1, 2. split; [cbn; lia | reflexivity].
  - reflexivity.
Defined.

(** C9, as amended.  With the partition flag off the record carries no
    partition slice and its only key is the name; a topic that lists zero
    partitions with the flag on yields the very same record. *)
Theorem flag_off_record_equals_empty_topic_record
        `{RegexpEngine} (cmd_off cmd_on : topicCmd) (name : string) (ps : slice Z) :
  partitions cmd_off = false ->
  partitions cmd_on = true ->
  Partitions (client cmd_on) name = Ok ps ->
  elems ps = [] ->
  readTopic cmd_off name = ({| Name := name; TPartitions := None |}, None) /\
  json_keys (fst (readTopic cmd_off name)) = ["name"%string] /\
  readTopic cmd_on name = readTopic cmd_off name.
Proof.
  intros Hoff Hon Hps Hnil.
  rewrite (readTopic_flag_off cmd_off name Hoff).
  rewrite (readTopic_no_partitions cmd_on name ps Hon Hps Hnil).
  by repeat split.
Qed.

Lemma flag_off_record_equals_empty_topic_record_witness :
  readTopic Pipeline.demo_cmd_bare "c"
    = ({| Name := "c"; TPartitions := None |}, None) /\
  json_keys (fst (readTopic Pipeline.demo_cmd_bare "c")) = ["name"%string] /\
  readTopic Pipeline.demo_cmd "c" = readTopic Pipeline.demo_cmd_bare "c".
Proof.
  apply (flag_off_record_equals_empty_topic_record
           Pipeline.demo_cmd_bare Pipeline.demo_cmd "c" (Some []));
    reflexivity.
Defined.

(** C9 as stated fails: the record for topic [c] read with the flag off
    and the record for the same topic, which has no partitions, read with
    the flag on are one and the same value. *)
Lemma flag_off_record_not_distinguishable :
  partitions Pipeline.demo_cmd_bare = false /\
  partitions Pipeline.demo_cmd = true /\
  Partitions (client Pipeline.demo_cmd) "c" = Ok (Some []) /\
  ~ (fst (readTopic Pipeline.demo_cmd_bare "c")
     <> fst (readTopic Pipeline.demo_cmd "c")).
Proof.
  split; [reflexivity|]. split; [reflexivity|]. split; [reflexivity|].
  intros Hne. apply Hne. reflexivity.
Qed.

End TopicProofs.

(** ** Part VI.  Properties of the pipeline *)

Module PipelineProofs.
Import Topic Pipeline.


Section Proofs.
Context `{RegexpEngine}.
Variable marshal : bool -> topic -> list ascii.
Variable cmd : topicCmd.

#[local] Abbreviation step := (Pipeline.step marshal cmd).
#[local] Abbreviation reachable := (Pipeline.reachable marshal cmd).



































Lemma list_sum_mid_lt (l1 l2 : list nat) a b d :
  b + d < a ->
  list_sum (l1 ++ b :: l2) + d < list_sum (l1 ++ a :: l2).
Proof. intros. rewrite !list_sum_app. cbn. lia. Qed.









Lemma read_effect s i s' :
  step s (EvRead i) s' ->
  exists name top,
    workers s !! i = Some {| wname := name; wpc := WStart |} /\
    readTopic cmd name = (top, None) /\
    stderr s' = stderr s /\ stdout s' = stdout s.
Proof.
  intros Hstep. inversion Hstep; subst. cbn. eexists _, _. by repeat split.
Qed.







End Proofs.







End PipelineProofs.

(** ** Part VII.  Connection set-up and broker list *)

Module CommonProofs.
Import Topic Common.

Lemma Split_nonempty s sep : Split s sep <> [].
Proof.
  destruct s as [|c s]; cbn; [done|].
  destruct (Ascii.eqb c sep); [done|]. by destruct (Split s sep).
Qed.

Lemma append_nil_l (s : string) : ("" +:+ s)%string = s.
Proof. reflexivity. Qed.

Lemma append_cons c (a s : string) : (String c a +:+ s)%string = String c (a +:+ s).
Proof. reflexivity. Qed.

Lemma Split_app_sep a b sep :
  Split (a +:+ String sep b) sep = Split a sep ++ Split b sep.
Proof.
  induction a as [|c a IH]; rewrite ?append_nil_l, ?append_cons; cbn [Split app].
  - by rewrite Ascii.eqb_refl.
  - destruct (Ascii.eqb c sep); [by rewrite IH|].
    rewrite IH. pose proof (Split_nonempty a sep).
    by destruct (Split a sep).
Qed.

Lemma Split_no_sep s sep : Contains s sep = false -> Split s sep = [s].
Proof.
  induction s as [|c s IH]; cbn; [done|].
  intros [Hc Hs]%orb_false_iff. rewrite Hc. by rewrite IH.
Qed.

Lemma Split_pieces s sep : Forall (fun p => Contains p sep = false) (Split s sep).
Proof.
  induction s as [|c s IH]; cbn; [by repeat constructor|].
  destruct (Ascii.eqb c sep) eqn:Hc; [by constructor|].
  destruct (Split s sep) as [|h t]; [by repeat constructor; cbn; rewrite Hc|].
  inversion IH; subst. constructor; [|done]. cbn. by rewrite Hc.
Qed.

Lemma Split_length s sep : length (Split s sep) = S (count_sep s sep).
Proof.
  induction s as [|c s IH]; cbn; [done|].
  destruct (Ascii.eqb c sep); cbn; [by rewrite IH|].
  pose proof (Split_nonempty s sep). destruct (Split s sep); [done|].
  by cbn in *.
Qed.

Lemma removeInvalid_valid u : allValid (removeInvalid u).
Proof.
  unfold allValid. induction u as [|c u IH]; cbn; [constructor|].
  destruct (validClientIDChar c) eqn:Hc; [|done]. cbn. by constructor.
Qed.

Lemma removeInvalid_id u : allValid u -> removeInvalid u = u.
Proof.
  unfold allValid. induction u as [|c u IH]; cbn; [done|].
  intros [Hc Hu]%Forall_cons. rewrite Hc. by rewrite IH.
Qed.

Lemma removeInvalid_length u : String.length (removeInvalid u) <= String.length u.
Proof.
  induction u as [|c u IH]; cbn; [done|].
  destruct (validClientIDChar c); cbn; lia.
Qed.

Lemma valid_no_backslash u : allValid u -> Contains u backslash = false.
Proof.
  unfold allValid. induction u as [|c u IH]; cbn; [done|].
  intros [Hc Hu]%Forall_cons. rewrite (IH Hu), orb_false_r.
  destruct (Ascii.eqb c backslash) eqn:E; [|done].
  apply Ascii.eqb_eq in E. subst c. discriminate Hc.
Qed.

Lemma sanitizeUsername_valid_id u : allValid u -> sanitizeUsername u = Some u.
Proof.
  intros Hu. unfold sanitizeUsername.
  rewrite (Split_no_sep _ _ (valid_no_backslash u Hu)). cbn.
  by rewrite removeInvalid_id.
Qed.

Lemma sanitizeUsername_last u :
  exists u', last (Split u backslash) = Some u' /\
             sanitizeUsername u = Some (removeInvalid u') /\
             String.length u' <= String.length u.
Proof.
  unfold sanitizeUsername.
  assert (Hlen : Forall (fun p => String.length p <= String.length u)
                        (Split u backslash)).
  { induction u as [|c u IH]; cbn; [by repeat constructor|].
    destruct (Ascii.eqb c backslash).
    - constructor; [cbn; lia|]. eapply Forall_impl; [exact IH|]. cbn. lia.
    - pose proof (Split_nonempty u backslash).
      destruct (Split u backslash) as [|h t]; [done|].
      inversion IH; subst. constructor; [cbn; lia|].
      eapply Forall_impl; [eassumption|]. cbn. lia. }
  destruct (last (Split u backslash)) as [u'|] eqn:Hl.
  - exists u'. split; [done|]. split; [done|].
    rewrite Forall_forall in Hlen. apply Hlen.
    apply last_Some in Hl as [l' ->]. apply elem_of_app. right.
    by apply list_elem_of_singleton.
  - apply last_None in Hl. by destruct (Split_nonempty u backslash).
Qed.

(** X3.  The sanitized name always exists, has only characters of the class
    [a-zA-Z0-9_-] and is no longer than the input. *)
Theorem sanitizeUsername_valid (u : string) :
  exists r, sanitizeUsername u = Some r /\ allValid r /\
            String.length r <= String.length u.
Proof.
  destruct (sanitizeUsername_last u) as (u' & _ & Hs & Hlen).
  exists (removeInvalid u'). split; [done|]. split; [apply removeInvalid_valid|].
  pose proof (removeInvalid_length u'). lia.
Qed.

(** X4.  Whatever stands before a backslash is dropped: only the part after
    the last backslash counts. *)
Theorem sanitizeUsername_drops_domain (d u : string) :
  sanitizeUsername (d +:+ String backslash u) = sanitizeUsername u.
Proof.
  unfold sanitizeUsername. rewrite Split_app_sep.
  pose proof (Split_nonempty u backslash) as Hne.
  destruct (Split u backslash) as [|h t] using rev_ind; [done|].
  by rewrite app_assoc, !last_snoc.
Qed.

(** X5.  A name made of valid characters only is returned as it is, and
    sanitizing a sanitized name changes nothing. *)
Theorem sanitizeUsername_idempotent (u : string) :
  (allValid u -> sanitizeUsername u = Some u) /\
  (forall r, sanitizeUsername u = Some r -> sanitizeUsername r = Some r).
Proof.
  split; [apply sanitizeUsername_valid_id|].
  intros r Hr. apply sanitizeUsername_valid_id.
  destruct (sanitizeUsername_last u) as (u' & _ & Hs & _).
  rewrite Hs in Hr. injection Hr as <-. apply removeInvalid_valid.
Qed.

Lemma sanitizeUsername_idempotent_witness :
  sanitizeUsername "john_doe-42" = Some "john_doe-42"%string /\
  sanitizeUsername "johndoe" = Some "johndoe"%string.
Proof.
  split.
  - apply (proj1 (sanitizeUsername_idempotent "john_doe-42")).
    unfold allValid. cbn. repeat constructor.
  - apply (proj2 (sanitizeUsername_idempotent "DOMAIN\john doe")). reflexivity.
Defined.

(** X6.  Every version string but the five recognised ones selects
    [V0_10_0_0], and the five select five different older versions. *)
Theorem kafkaVersion_fallback (s : string) :
  (kafkaVersion s = V0_10_0_0 <-> ~ In s known_versions) /\
  NoDup (map kafkaVersion known_versions).
Proof.
  split.
  - unfold kafkaVersion, known_versions.
    repeat match goal with
           | |- context [String.eqb s ?k] =>
             destruct (String.eqb_spec s k) as [->|?]
           end; split; try discriminate; cbn; intuition congruence.
  - cbn. repeat (apply NoDup_cons; split; [rewrite ?elem_of_cons, ?elem_of_nil; intuition discriminate|]).
    apply NoDup_nil. done.
Qed.

Section Config.
Variable Cert : Type.
Variable LoadX509KeyPair : string -> string -> result Cert.

#[local] Abbreviation saramaConfig := (Common.saramaConfig Cert LoadX509KeyPair).

Lemma allValid_app (a b : string) : allValid a -> allValid b -> allValid (a +:+ b).
Proof.
  unfold allValid. induction a as [|c a IH]; rewrite ?append_nil_l, ?append_cons;
    cbn; [done|].
  intros [Hc Ha]%Forall_cons Hb. constructor; [done | by apply IH].
Qed.

(** X7.  When [saramaConfig] returns, the client id is ["kt-consume-"] followed
    by the sanitized user name, so it has valid characters only; the
    version comes from the version string; TLS is enabled exactly when
    asked for, and a certificate is configured exactly when a path was
    given. *)
Theorem saramaConfig_client_id (args : connectionArgs) (usr : User) (cfg : Config Cert) :
  saramaConfig args (Ok usr) = Returns cfg ->
  (exists name, sanitizeUsername (Username usr) = Some name /\
                ClientID _ cfg = ("kt-consume-" +:+ name)%string) /\
  allValid (ClientID _ cfg) /\
  Version _ cfg = kafkaVersion (version args) /\
  TLSEnable _ cfg = tls args /\
  (TLSConfig _ cfg = None <-> clientCert args = ""%string).
Proof.
  unfold Common.saramaConfig, makeTLSConfig.
  destruct (sanitizeUsername_valid (Username usr)) as (name & Hs & Hv & _).
  rewrite Hs.
  assert (Hid : allValid ("kt-consume-" +:+ name)).
  { apply allValid_app; [|done]. unfold allValid. cbn. repeat constructor. }
  destruct (String.eqb_spec (clientCert args) "") as [He|Hne].
  - intros [= <-]. cbn. split; [by exists name|]. split; [done|].
    split; [done|]. split; [by destruct (tls args)|]. done.
  - destruct (LoadX509KeyPair (clientCert args) (clientCert args)); [|discriminate].
    intros [= <-]. cbn. split; [by exists name|]. split; [done|].
    split; [done|]. split; [by destruct (tls args)|]. split; [discriminate | done].
Qed.

(** X8.  How [saramaConfig] ends: it panics exactly when the user lookup
    failed; otherwise it ends the process exactly when a certificate
    path is given and the pair cannot be loaded, with status 1; in all
    other cases it returns. *)
Theorem saramaConfig_outcome (args : connectionArgs) (current : result User) :
  (saramaConfig args current = Panics <-> call_fails current) /\
  (forall code, saramaConfig args current = Exits code <->
     code = 1%Z /\ ~ call_fails current /\ clientCert args <> ""%string /\
     call_fails (LoadX509KeyPair (clientCert args) (clientCert args))) /\
  ((exists cfg, saramaConfig args current = Returns cfg) <->
     ~ call_fails current /\
     (clientCert args = ""%string \/
      ~ call_fails (LoadX509KeyPair (clientCert args) (clientCert args)))).
Proof.
  unfold Common.saramaConfig, makeTLSConfig, call_fails.
  destruct current as [usr|e].
  2: { split; [split; eauto|]. split.
       - intros code. split; [discriminate|]. intros (_ & Hn & _). destruct Hn. eauto.
       - split; [intros [? [=]]|]. intros [Hn _]. destruct Hn. eauto. }
  destruct (sanitizeUsername_valid (Username usr)) as (name & Hs & _).
  rewrite Hs.
  destruct (String.eqb_spec (clientCert args) "") as [He|Hne].
  - split; [split; [discriminate | intros [? [=]]]|]. split.
    + intros code. split; [discriminate|]. intros (_ & _ & Hn & _). done.
    + split; [|eauto]. intros _. split; [intros [? [=]] | by left].
  - destruct (LoadX509KeyPair (clientCert args) (clientCert args)) as [cert|e].
    + split; [split; [discriminate | intros [? [=]]]|]. split.
      * intros code. split; [discriminate|]. intros (_ & _ & _ & [? [=]]).
      * split; [|eauto]. intros _. split; [intros [? [=]]|]. right. intros [? [=]].
    + split; [split; [discriminate | intros [? [=]]]|]. split.
      * intros code. split.
        -- intros [= <-]. split; [done|]. split; [intros [? [=]]|]. eauto.
        -- by intros (-> & _).
      * split; [intros [? [=]]|]. intros [_ [?|Hn]]; [done|]. destruct Hn. eauto.
Qed.

End Config.

Lemma saramaConfig_client_id_witness :
  allValid "kt-consume-me" /\
  Common.saramaConfig nat (fun _ _ => Ok 0)
    {| version := "v0.9.0.1"; tls := false; clientCert := "" |}
    (Ok {| Username := "PC\me!" |})
  = Returns {| Version := V0_9_0_1; ClientID := "kt-consume-me";
               TLSEnable := false; TLSConfig := None |}.
Proof.
  split; [|reflexivity].
  destruct (saramaConfig_client_id nat (fun _ _ => Ok 0)
              {| version := "v0.9.0.1"; tls := false; clientCert := "" |}
              {| Username := "PC\me!" |}
              {| Version := V0_9_0_1; ClientID := "kt-consume-me";
                 TLSEnable := false; TLSConfig := None |} eq_refl)
    as (_ & Hv & _).
  exact Hv.
Defined.

Lemma Contains_app a b c : Contains (a +:+ b) c = Contains a c || Contains b c.
Proof.
  induction a as [|x a IH]; rewrite ?append_nil_l, ?append_cons; cbn; [done|].
  by rewrite IH, orb_assoc.
Qed.

Lemma insert_at_length {A} (l1 l2 : list A) x y :
  <[length l1 := x]> (l1 ++ y :: l2) = l1 ++ x :: l2.
Proof. induction l1 as [|a l1 IH]; [done|]. cbn. f_equal. exact IH. Qed.

Lemma addDefaultPorts_map pre todo :
  addDefaultPorts (pre ++ todo) (length pre) todo = pre ++ map withPort todo.
Proof.
  revert pre. induction todo as [|b rest IH]; intros pre; cbn [addDefaultPorts map].
  - done.
  - unfold withPort at 1. destruct (Contains b colon); cbn [negb].
    + replace (pre ++ b :: rest) with ((pre ++ [b]) ++ rest)
        by (by rewrite <- app_assoc).
      replace (S (length pre)) with (length (pre ++ [b]))
        by (rewrite length_app; cbn; lia).
      rewrite IH. by rewrite <- app_assoc.
    + rewrite insert_at_length.
      replace (pre ++ (b +:+ ":9092") :: rest)
        with ((pre ++ [(b +:+ ":9092")%string]) ++ rest)
        by (by rewrite <- app_assoc).
      replace (S (length pre)) with (length (pre ++ [(b +:+ ":9092")%string]))
        by (rewrite length_app; cbn; lia).
      rewrite IH. by rewrite <- app_assoc.
Qed.

Lemma resolveBrokers_map f e :
  resolveBrokers f e = map withPort (Split (chosenBrokers f e) comma).
Proof.
  unfold resolveBrokers, chosenBrokers.
  destruct (String.eqb f ""), (String.eqb e ""); cbn [negb];
    apply (addDefaultPorts_map []).
Qed.

(** X9.  The loop with its update in place gives each comma-separated piece
    of the chosen broker string its default port when it has none and
    leaves the others alone; the pieces keep their order and number. *)
Theorem resolveBrokers_pieces (flagBrokers envBrokers : string) :
  resolveBrokers flagBrokers envBrokers
    = map withPort (Split (chosenBrokers flagBrokers envBrokers) comma) /\
  length (resolveBrokers flagBrokers envBrokers)
    = S (count_sep (chosenBrokers flagBrokers envBrokers) comma) /\
  (Forall (fun p => Contains p colon = true)
          (Split (chosenBrokers flagBrokers envBrokers) comma) ->
   resolveBrokers flagBrokers envBrokers
     = Split (chosenBrokers flagBrokers envBrokers) comma).
Proof.
  rewrite resolveBrokers_map. split; [done|]. split.
  - by rewrite length_map, Split_length.
  - intros Hall. induction Hall as [|p l Hp _ IH]; [done|]. cbn.
    unfold withPort at 1. by rewrite Hp, IH.
Qed.

Lemma resolveBrokers_pieces_witness :
  resolveBrokers "h1:9093,h2:9094" "" = Split "h1:9093,h2:9094" comma.
Proof.
  apply (resolveBrokers_pieces "h1:9093,h2:9094" "").
  cbn. repeat constructor.
Defined.

(** X10.  Every broker address [parseArgs] leaves has a port separator and no
    comma, and there is at least one. *)
Theorem resolveBrokers_have_ports (flagBrokers envBrokers : string) :
  resolveBrokers flagBrokers envBrokers <> [] /\
  Forall (fun b => Contains b colon = true /\ Contains b comma = false)
         (resolveBrokers flagBrokers envBrokers).
Proof.
  rewrite resolveBrokers_map. split.
  - pose proof (Split_nonempty (chosenBrokers flagBrokers envBrokers) comma).
    by destruct (Split (chosenBrokers flagBrokers envBrokers) comma).
  - apply Forall_map. eapply Forall_impl; [apply Split_pieces|].
    intros p Hp. cbn. unfold withPort.
    destruct (Contains p colon) eqn:Hc; [done|].
    rewrite !Contains_app, Hp, Hc. done.
Qed.

(** X11.  The [-brokers] flag wins over [KT_BROKERS], which wins over the
    default [localhost:9092]. *)
Theorem resolveBrokers_precedence (flagBrokers envBrokers : string) :
  (flagBrokers <> ""%string ->
   forall env', resolveBrokers flagBrokers envBrokers
                = resolveBrokers flagBrokers env') /\
  (flagBrokers = ""%string -> envBrokers <> ""%string ->
   resolveBrokers flagBrokers envBrokers = resolveBrokers envBrokers ""%string) /\
  (flagBrokers = ""%string -> envBrokers = ""%string ->
   resolveBrokers flagBrokers envBrokers = ["localhost:9092"%string]).
Proof.
  split; [|split].
  - intros Hf env'. rewrite !resolveBrokers_map. unfold chosenBrokers.
    by destruct (String.eqb_spec flagBrokers "").
  - intros -> He. rewrite !resolveBrokers_map. unfold chosenBrokers.
    change (String.eqb "" "") with true. cbn iota.
    by destruct (String.eqb_spec envBrokers "").
  - by intros -> ->.
Qed.

Lemma resolveBrokers_precedence_witness :
  resolveBrokers "k1" "e1:1" = resolveBrokers "k1" "" /\
  resolveBrokers "" "e1:1" = resolveBrokers "e1:1" "" /\
  resolveBrokers "" "" = ["localhost:9092"%string].
Proof.
  destruct (resolveBrokers_precedence "k1" "e1:1") as (H1 & _ & _).
  destruct (resolveBrokers_precedence "" "e1:1") as (_ & H2 & _).
  destruct (resolveBrokers_precedence "" "") as (_ & _ & H3).
  split; [apply H1; discriminate|]. split; [apply H2; [reflexivity | discriminate]|].
  by apply H3.
Defined.

End CommonProofs.

(** ** Part VIII.  Further properties of the hasher *)

Module HasherExtras.
Import Hasher HasherProofs Properties.
Local Open Scope Z_scope.

Lemma bytes_app (s1 s2 : string) : bytes (s1 +:+ s2) = bytes s1 ++ bytes s2.
Proof.
  unfold bytes. induction s1 as [|c s1 IH]; [done|].
  change (String c s1 +:+ s2)%string with (String c (s1 +:+ s2)).
  cbn. by rewrite IH.
Qed.

Lemma bytes_length (s : string) : length (bytes s) = String.length s.
Proof. unfold bytes. rewrite length_map. induction s; cbn; congruence. Qed.

Lemma first_ascii b : b < 0x80 -> first b = AS.
Proof. unfold first. intros Hb. destruct (b <? 0x80) eqn:E; [done | lia]. Qed.

Lemma out_of_ascii lo hi b : locb <= lo -> b < 0x80 -> out_of lo hi b = true.
Proof.
  unfold out_of, locb. intros Hlo Hb. destruct (b <? lo) eqn:E; [done | lia].
Qed.

Lemma runes_ascii l : Forall (fun b => b < 0x80) l -> runes l = l.
Proof.
  induction 1 as [|b l Hb _ IH]; [done|]. cbn [runes].
  by rewrite (first_ascii b Hb), IH.
Qed.

Lemma runes_app_ascii_aux n : forall l1 l2,
  (length l1 <= n)%nat -> Forall (fun b => b < 0x80) l2 ->
  runes (l1 ++ l2) = runes l1 ++ runes l2.
Proof.
  induction n as [|n IH]; intros l1 l2 Hlen Hl2.
  { destruct l1; [done | cbn in Hlen; lia]. }
  destruct l1 as [|s0 t0]; [reflexivity|].
  assert (IH0 : runes (t0 ++ l2) = runes t0 ++ runes l2).
  { apply IH; [cbn in Hlen; lia | done]. }
  cbn [app runes]. destruct (first s0) as [| |sz lo hi] eqn:Hf.
  - by rewrite IH0.
  - by rewrite IH0.
  - apply first_lead in Hf as (Hlo & _ & _).
    destruct t0 as [|s1 t1].
    { cbn [app] in *. destruct Hl2 as [|a l2 Ha Hl2];
        [change (runes []) with (@nil Z); by rewrite app_nil_r|].
      by rewrite (out_of_ascii lo hi a Hlo Ha). }
    cbn [app] in *. destruct (out_of lo hi s1); [by rewrite IH0|].
    assert (IH1 : runes (t1 ++ l2) = runes t1 ++ runes l2).
    { apply IH; [cbn in Hlen; lia | done]. }
    destruct (sz <=? 2)%nat; [by rewrite IH1|].
    destruct t1 as [|s2 t2].
    { cbn [app] in *. destruct Hl2 as [|a l2 Ha Hl2];
        [change (runes []) with (@nil Z); by rewrite app_nil_r|].
      rewrite (out_of_ascii locb hicb a); [by rewrite IH0 | done | done]. }
    cbn [app] in *. destruct (out_of locb hicb s2); [by rewrite IH0|].
    assert (IH2 : runes (t2 ++ l2) = runes t2 ++ runes l2).
    { apply IH; [cbn in Hlen; lia | done]. }
    destruct (sz <=? 3)%nat; [by rewrite IH2|].
    destruct t2 as [|s3 t3].
    { cbn [app] in *. destruct Hl2 as [|a l2 Ha Hl2];
        [change (runes []) with (@nil Z); by rewrite app_nil_r|].
      rewrite (out_of_ascii locb hicb a); [by rewrite IH0 | done | done]. }
    cbn [app] in *. destruct (out_of locb hicb s3); [by rewrite IH0|].
    rewrite (IH t3 l2); [done | cbn in Hlen; lia | done].
Qed.

Lemma wrap32_split x : exists k, wrap32 x = x + k * 2^32.
Proof.
  unfold wrap32. exists (- ((x + 2^31) / 2^32)).
  pose proof (Z.div_mod (x + 2^31) (2^32) ltac:(lia)). lia.
Qed.

Lemma wrap32_congr a b m : a = b + m * 2^32 -> wrap32 a = wrap32 b.
Proof.
  intros ->. unfold wrap32. f_equal.
  replace (b + m * 2^32 + 2^31) with (b + 2^31 + m * 2^32) by lia.
  apply Z_mod_plus_full.
Qed.

Lemma ref_fold_shift l h :
  is_int32 h ->
  fold_left ref_step l h
  = wrap32 (h * 31 ^ Z.of_nat (length l) + fold_left ref_step l 0).
Proof.
  revert h. induction l as [|u l IH]; intros h Hh.
  - cbn [fold_left length]. change (31 ^ Z.of_nat 0) with 1.
    rewrite wrap32_id; [lia|]. by replace (h * 1 + 0) with h by lia.
  - cbn [fold_left length].
    rewrite (IH (ref_step h u)) by apply wrap32_range.
    rewrite (IH (ref_step 0 u)) by apply wrap32_range.
    rewrite Nat2Z.inj_succ, Z.pow_succ_r by lia.
    unfold ref_step.
    set (P := 31 ^ Z.of_nat (length l)). set (F := fold_left _ l 0).
    destruct (wrap32_split (31 * h + u)) as [k1 ->].
    destruct (wrap32_split (31 * 0 + u)) as [k2 ->].
    destruct (wrap32_split ((31 * 0 + u + k2 * 2 ^ 32) * P + F)) as [k3 ->].
    apply (wrap32_congr _ _ (k1 * P - k2 * P - k3)). ring.
Qed.

Lemma units_ascii l :
  Forall (fun b => b < 0x80) l -> flat_map utf16_of_rune l = l.
Proof.
  induction 1 as [|b l Hb _ IH]; [done|]. cbn [flat_map]. rewrite IH.
  unfold utf16_of_rune, is_bmp. destruct (b <? 0x10000) eqn:E; [done | lia].
Qed.

(** X2.  Appending a suffix of ASCII bytes [s2] to any key [s1] gives the hash
    [hashCode s1 * 31^len(s2) + hashCode s2] in 32-bit arithmetic. *)
Theorem hashCode_append_ascii (s1 s2 : string) :
  ascii_only s2 ->
  hashCode (s1 +:+ s2)
  = wrap32 (hashCode s1 * 31 ^ Z.of_nat (String.length s2) + hashCode s2).
Proof.
  intros H2. rewrite !hashCode_ref. unfold utf16_units, ref_hash.
  rewrite bytes_app.
  rewrite (runes_app_ascii_aux (length (bytes s1)) _ _ (le_n _) H2).
  rewrite flat_map_app, fold_left_app.
  rewrite ref_fold_shift by apply ref_hash_int32.
  by rewrite (runes_ascii _ H2), (units_ascii _ H2), bytes_length.
Qed.

Lemma hashCode_append_ascii_witness :
  hashCode ("polygenelubricants" +:+ "-7")
  = wrap32 (hashCode "polygenelubricants" * 31 ^ 2 + hashCode "-7").
Proof.
  apply (hashCode_append_ascii "polygenelubricants" "-7").
  unfold ascii_only. cbn. repeat constructor.
Defined.

(** X1.  [kafkaAbs] is the absolute value on every 32-bit integer but the
    least one; its result is never negative and applying it again changes
    nothing. *)
Theorem kafkaAbs_abs (i : Z) :
  is_int32 i ->
  (i <> int32_min -> kafkaAbs i = Z.abs i) /\
  0 <= kafkaAbs i <= int32_max /\
  kafkaAbs (kafkaAbs i) = kafkaAbs i.
Proof.
  intros Hi. pose proof (kafkaAbs_range i Hi) as Hr.
  split; [|split; [done|]].
  - intros Hne. unfold is_int32, int32_min, int32_max in *.
    destruct (Z_lt_ge_dec i 0) as [Hneg|Hpos].
    + rewrite kafkaAbs_neg by (unfold int32_min; lia). lia.
    + unfold kafkaAbs. destruct (i =? -2147483648) eqn:E1; [lia|].
      destruct (i <? 0) eqn:E2; lia.
  - unfold int32_max in Hr. unfold kafkaAbs at 1.
    destruct (kafkaAbs i =? -2147483648) eqn:E1; [lia|].
    destruct (kafkaAbs i <? 0) eqn:E2; [lia | done].
Qed.

Lemma kafkaAbs_abs_witness :
  kafkaAbs (-5) = Z.abs (-5) /\ kafkaAbs (kafkaAbs (-2147483648)) = kafkaAbs (-2147483648).
Proof.
  split.
  - apply (kafkaAbs_abs (-5)); unfold is_int32, int32_min, int32_max; lia.
  - apply (kafkaAbs_abs (-2147483648)); unfold is_int32, int32_min, int32_max; lia.
Defined.

End HasherExtras.

(** ** Part IX.  Further properties of topic retrieval *)

Module TopicExtras.
Import Topic TopicProofs Properties.


Section Proofs.
Context `{RegexpEngine}.
Variable cmd : topicCmd.

Lemma readPartition_reported name p np :
  readPartition cmd name p = Ok np -> partition_as_reported cmd name np.
Proof.
  intros Hrd. pose proof (readPartition_id cmd name p np Hrd) as Hid.
  revert Hrd. unfold readPartition, partition_as_reported, bind. rewrite Hid.
  destruct (GetOffset (client cmd) name p OffsetOldest); [|discriminate].
  destruct (GetOffset (client cmd) name p OffsetNewest); [|discriminate].
  destruct (leaders cmd); [destruct (Leader (client cmd) name p); [|discriminate]|];
    (destruct (replicas cmd);
     [destruct (Replicas (client cmd) name p); [|discriminate];
      destruct (InSyncReplicas (client cmd) name p); [|discriminate]|]);
    intros [= <-]; cbn; eauto 10.
Qed.

Lemma readPartitions_reported name ps : forall top top',
  readPartitions cmd name ps top = (top', None) ->
  Forall (partition_as_reported cmd name) (elems (TPartitions top)) ->
  Forall (partition_as_reported cmd name) (elems (TPartitions top')).
Proof.
  induction ps as [|p ps IH]; intros top top'; cbn [readPartitions].
  - by intros [= <-].
  - destruct (readPartition cmd name p) as [np|e] eqn:Hp; [|discriminate].
    intros Hrec Hall. apply (IH _ _ Hrec). cbn. apply Forall_app. split; [done|].
    constructor; [by eapply readPartition_reported | constructor].
Qed.

(** X12.  Every partition of a record that [readTopic] returns without error
    carries the offsets the client reported for it; its leader address is
    the reported leader's when leaders are asked for and empty otherwise;
    its replica and in-sync replica lists are the reported ones when
    replicas are asked for and nil otherwise. *)
Theorem readTopic_fields (name : string) (top : topic) :
  readTopic cmd name = (top, None) ->
  Forall (partition_as_reported cmd name) (elems (TPartitions top)).
Proof.
  unfold readTopic. destruct (partitions cmd); cbn [negb].
  - destruct (Partitions (client cmd) name) as [ps|e0]; [|discriminate].
    intros Hrec. apply (readPartitions_reported _ _ _ _ Hrec). constructor.
  - intros [= <-]. constructor.
Qed.

(** X13.  The error of a partition is that of the first call that fails, in
    the order oldest offset, newest offset, leader, replicas, in-sync
    replicas, the last three only when asked for. *)
Theorem readPartition_first_failure (name : string) (p : Z) (e : error) :
  readPartition cmd name p = Err e <-> first_failure cmd name p e.
Proof.
  unfold readPartition, first_failure, call_fails, bind.
  destruct (GetOffset (client cmd) name p OffsetOldest) as [o|e1].
  2: { split; [intros [= ->]; by left|].
       intros [[= ->]|[Hn _]]; [done|]. destruct Hn. eauto. }
  destruct (GetOffset (client cmd) name p OffsetNewest) as [n|e2].
  2: { split; [intros [= ->]; right; split; [intros [? [=]]|]; by left|].
       intros [[=]|[_ [[= ->]|[Hn _]]]]; [done|]. destruct Hn. eauto. }
  destruct (leaders cmd) eqn:Hl.
  - destruct (Leader (client cmd) name p) as [led|e3].
    2: { split.
         - intros [= ->]. right. split; [intros [? [=]]|]. right.
           split; [intros [? [=]]|]. by left.
         - intros [[=]|[_ [[=]|[_ [[_ [= ->]]|[Hn _]]]]]]; [done|].
           destruct Hn; eauto. }
    destruct (replicas cmd) eqn:Hr.
    + destruct (Replicas (client cmd) name p) as [rs|e4].
      2: { split.
           - intros [= ->]. right. split; [intros [? [=]]|]. right.
             split; [intros [? [=]]|]. right. split; [intros _ [? [=]]|].
             split; [done|]. by left.
           - intros [[=]|[_ [[=]|[_ [[_ [=]]|[_ [_ [[= ->]|[Hn _]]]]]]]]]; [done|].
             destruct Hn; eauto. }
      destruct (InSyncReplicas (client cmd) name p) as [isrs|e5].
      * split; [discriminate|].
        intros [[=]|[_ [[=]|[_ [[_ [=]]|[_ [_ [[=]|[_ [=]]]]]]]]]].
      * split.
        -- intros [= ->]. right. split; [intros [? [=]]|]. right.
           split; [intros [? [=]]|]. right. split; [intros _ [? [=]]|].
           split; [done|]. right. split; [intros [? [=]] | done].
        -- by intros [[=]|[_ [[=]|[_ [[_ [=]]|[_ [_ [[=]|[_ [= ->]]]]]]]]]].
    + split; [discriminate|].
      intros [[=]|[_ [[=]|[_ [[_ [=]]|[_ [[=] _]]]]]]].
  - destruct (replicas cmd) eqn:Hr.
    + destruct (Replicas (client cmd) name p) as [rs|e4].
      2: { split.
           - intros [= ->]. right. split; [intros [? [=]]|]. right.
             split; [intros [? [=]]|]. right. split; [discriminate|].
             split; [done|]. by left.
           - intros [[=]|[_ [[=]|[_ [[[=] _]|[_ [_ [[= ->]|[Hn _]]]]]]]]]; [done|].
             destruct Hn; eauto. }
      destruct (InSyncReplicas (client cmd) name p) as [isrs|e5].
      * split; [discriminate|].
        intros [[=]|[_ [[=]|[_ [[[=] _]|[_ [_ [[=]|[_ [=]]]]]]]]]].
      * split.
        -- intros [= ->]. right. split; [intros [? [=]]|]. right.
           split; [intros [? [=]]|]. right. split; [discriminate|].
           split; [done|]. right. split; [intros [? [=]] | done].
        -- by intros [[=]|[_ [[=]|[_ [[[=] _]|[_ [_ [[=]|[_ [= ->]]]]]]]]]].
    + split; [discriminate|].
      intros [[=]|[_ [[=]|[_ [[[=] _]|[_ [[=] _]]]]]]].
Qed.

Lemma readPartitions_prefix name ps : forall top top' e,
  readPartitions cmd name ps top = (top', Some e) ->
  exists k p,
    ps !! k = Some p /\ readPartition cmd name p = Err e /\
    Name top' = Name top /\
    map Id (elems (TPartitions top')) = map Id (elems (TPartitions top)) ++ take k ps /\
    Forall (fun q => ~ partition_fails cmd name q) (take k ps).
Proof.
  induction ps as [|p ps IH]; intros top top' e; cbn [readPartitions].
  - discriminate.
  - destruct (readPartition cmd name p) as [np|e'] eqn:Hp.
    + intros Hrec. apply IH in Hrec as (k & q & Hk & Hq & Hn & Hids & Hnf).
      exists (S k), q. cbn in *. split; [done|]. split; [done|]. split; [done|].
      split.
      * rewrite Hids, map_app, <- app_assoc. cbn.
        by rewrite (readPartition_id _ _ _ _ Hp).
      * constructor; [|done]. rewrite readPartition_fails, Hp. intros [? [=]].
    + intros [= <- <-]. exists 0, p. cbn. rewrite app_nil_r.
      repeat split; done.
Qed.

(** X14.  When [readTopic] fails, either the partition listing failed with that
    error and the record has no partitions, or the error is that of the
    first listed partition for which a call fails, and the record
    returned beside it holds exactly the partitions listed before that
    one. *)
Theorem readTopic_first_failing_partition (name : string) (top : topic) (e : error) :
  readTopic cmd name = (top, Some e) ->
  partitions cmd = true /\ Name top = name /\
  ((Partitions (client cmd) name = Err e /\ TPartitions top = None) \/
   exists ps k p,
     Partitions (client cmd) name = Ok ps /\
     elems ps !! k = Some p /\
     readPartition cmd name p = Err e /\
     map Id (elems (TPartitions top)) = take k (elems ps) /\
     Forall (fun q => ~ partition_fails cmd name q) (take k (elems ps))).
Proof.
  unfold readTopic. destruct (partitions cmd); cbn [negb]; [|discriminate].
  destruct (Partitions (client cmd) name) as [ps|e0].
  - intros Hrec. apply readPartitions_prefix in Hrec as (k & p & Hk & Hp & Hn & Hids & Hnf).
    cbn in *. split; [done|]. split; [done|]. right. by exists ps, k, p.
  - intros [= <- <-]. split; [done|]. split; [done|]. by left.
Qed.

End Proofs.

Lemma readTopic_fields_witness :
  Forall (partition_as_reported Pipeline.demo_cmd "a")
         (elems (TPartitions (fst (readTopic Pipeline.demo_cmd "a")))).
Proof. apply (readTopic_fields Pipeline.demo_cmd "a"). reflexivity. Defined.

Lemma readTopic_first_failing_partition_witness :
  partitions Pipeline.demo_cmd = true /\
  Name (fst (readTopic Pipeline.demo_cmd "b")) = "b"%string.
Proof.
  destruct (readTopic_first_failing_partition Pipeline.demo_cmd "b"
              (fst (readTopic Pipeline.demo_cmd "b")) "boom" eq_refl)
    as (H1 & H2 & _).
  by split.
Defined.

End TopicExtras.

(** ** Part X.  Further properties of the pipeline *)

Module PipelineExtras.
Import Topic Pipeline TopicProofs PipelineProofs Properties.


Section Proofs.
Context `{RegexpEngine}.
Variable marshal : bool -> topic -> list ascii.
Variable cmd : topicCmd.

#[local] Abbreviation step := (Pipeline.step marshal cmd).
#[local] Abbreviation reachable := (Pipeline.reachable marshal cmd).

(** X15.  When the topic listing fails nothing is started: the only step is the
    one in which [failf] writes its line and ends the process with status
    1, with nothing on the sink, no serializer and no worker; after it
    nothing moves. *)
Theorem listing_failure_exits (e : error) s :
  Topics (client cmd) = Err e ->
  reachable s ->
  (s = init \/ s = listing_failed e) /\
  (forall ev s', step s ev s' -> s = init /\ ev = EvFail /\ s' = listing_failed e) /\
  step init EvFail (listing_failed e).
Proof.
  intros Ht Hr.
  assert (Hfrom : forall s0 ev s',
             s0 = init \/ s0 = listing_failed e -> step s0 ev s' ->
             s0 = init /\ ev = EvFail /\ s' = listing_failed e).
  { intros s0 ev s' Hs0 Hstep.
    inversion Hstep as
      [s1 all Ho Ht' | s1 e' Ho Ht' | s1 ts Ho | s1 tn rest Ho | s1 Ho
       | s1 Ho Hz | s1 i name top Hw Hrd | s1 i name top e' Hw Hrd
       | s1 i j name ctx x x' Hw Hj Hx Hc | s1 j x b x' Hj Hx
       | s1 j x d x' Hj Hx | s1 j x x' Hj Hx Hc | s1 i name ctx Hw Hd
       | s1 i name Hw]; subst;
      destruct Hs0 as [-> | ->]; try discriminate; try congruence.
    rewrite Ht in Ht'. injection Ht' as <-. done. }
  split; [|split].
  - induction Hr as [|s0 ev s' Hr IH Hstep]; [by left|].
    right. by destruct (Hfrom _ _ _ IH Hstep) as (_ & _ & ->).
  - intros ev s' Hstep. eapply Hfrom; [|exact Hstep].
    clear Hstep. induction Hr as [|s0 ev0 s1 Hr IH Hstep]; [by left|].
    right. by destruct (Hfrom _ _ _ IH Hstep) as (_ & _ & ->).
  - by apply (step_fail marshal cmd init e).
Qed.








End Proofs.

Lemma listing_failure_exits_witness :
  step demo_marshal demo_cmd_down init EvFail (listing_failed "no brokers").
Proof.
  apply (listing_failure_exits demo_marshal demo_cmd_down "no brokers" init eq_refl
                               (reach_init _ _)).
Defined.






End PipelineExtras.
